(** * numpywren: sharded matrices on an object store and the queue-driven
      instruction executor

    A shallow embedding of [numpywren/matrix.py] and
    [numpywren/job_runner.py].

    Python integers are [Z]; tuples and lists of integers are [list Z];
    dictionaries are [gmap]; exceptions are a value of [exn] returned in
    [Raise].  Effectful code is written in small state-and-exception
    monads whose state is the external service the code talks to (the
    object store, the queue service, the program's own state).  A loop
    that the source writes with [while] or over a growing list takes a
    [fuel] argument; running out of it is the separate outcome
    [Timeout], never a normal return. *)

From Stdlib Require Import ZArith String Ascii List Lia Bool Sorted.
From stdpp Require Import base gmap list strings pretty.

Open Scope string_scope.
Open Scope list_scope.
Open Scope Z_scope.

(** ** Python values and exceptions *)

Module Py.

(** Instances of Python's [Exception] class that the embedded code can
    raise or pass on.  [ClientError] stands for a failure reported by the
    object-store or queue client. *)
Inductive exn : Type :=
| IndexError
| KeyError
| TypeError
| ValueError
| ZeroDivisionError
| NotImplementedError
| AssertionError
| UnboundLocalError (name : string)
| ClientError (msg : string)
| Exception (msg : string).

(** [UnboundLocalError] is a subclass of [NameError]. *)
Definition is_NameError (e : exn) : bool :=
  match e with UnboundLocalError _ => true | _ => false end.

Definition exn_repr (e : exn) : string :=
  match e with
  | IndexError => "IndexError"
  | KeyError => "KeyError"
  | TypeError => "TypeError"
  | ValueError => "ValueError"
  | ZeroDivisionError => "ZeroDivisionError"
  | NotImplementedError => "NotImplementedError"
  | AssertionError => "AssertionError"
  | UnboundLocalError n =>
      "UnboundLocalError: local variable '" +:+ n +:+ "' referenced before assignment"
  | ClientError m => "ClientError: " +:+ m
  | Exception m => "Exception: " +:+ m
  end.

(** [traceback.format_exc()] inside an [except] block: the fixed header
    line, then the frames (not modelled), then the exception line. *)
Definition format_exc (e : exn) : string :=
  "Traceback (most recent call last):" +:+ String "010" (exn_repr e) +:+ String "010" "".

Inductive result (A : Type) : Type :=
| Ok (a : A)
| Raise (e : exn)
| Timeout.
Arguments Ok {A} a.
Arguments Raise {A} e.
Arguments Timeout {A}.

Definition rbind {A B} (r : result A) (k : A → result B) : result B :=
  match r with
  | Ok a => k a
  | Raise e => Raise e
  | Timeout => Timeout
  end.

Fixpoint rmapM {A B} (f : A → result B) (l : list A) : result (list B) :=
  match l with
  | [] => Ok []
  | x :: l' => rbind (f x) (λ y, rbind (rmapM f l') (λ ys, Ok (y :: ys)))
  end.

(** [l[i]]: a negative index counts from the end, anything out of range
    is an [IndexError]. *)
Definition index {A} (l : list A) (i : Z) : result A :=
  let j := if i <? 0 then i + Z.of_nat (length l) else i in
  if j <? 0 then Raise IndexError
  else match l !! Z.to_nat j with
       | Some x => Ok x
       | None => Raise IndexError
       end.

(** [l.remove(x)]: drops the first element equal to [x], [ValueError]
    when there is none. *)
Fixpoint remove_first `{EqDecision A} (x : A) (l : list A) : option (list A) :=
  match l with
  | [] => None
  | y :: l' => if decide (x = y) then Some l'
               else cons y <$> remove_first x l'
  end.

(** [l.insert(i, x)] for [i >= 0]: past the end it appends. *)
Definition list_insert_at {A} (i : nat) (x : A) (l : list A) : list A :=
  take i l ++ x :: drop i l.

(** [range(start, stop, step)]; [step = 0] is a [ValueError]. *)
Definition range_len (start stop step : Z) : Z :=
  if 0 <? step then Z.max 0 ((stop - start + step - 1) `div` step)
  else Z.max 0 ((start - stop - step - 1) `div` (- step)).

Definition range (start stop step : Z) : result (list Z) :=
  if step =? 0 then Raise ValueError
  else Ok ((λ k, start + Z.of_nat k * step) <$> seq 0 (Z.to_nat (range_len start stop step))).

(** [int(np.ceil(a / b))] on integers.  The source divides in floating
    point; the embedding takes the exact ceiling, which agrees with it
    as long as both operands are exactly representable. *)
Definition ceil_div (a b : Z) : result Z :=
  if b =? 0 then Raise ZeroDivisionError else Ok (- ((- a) `div` b)).

(** [itertools.product] of the lists [ls]: the first list varies slowest. *)
Fixpoint product {A} (ls : list (list A)) : list (list A) :=
  match ls with
  | [] => [[]]
  | l :: ls' => x ← l; (cons x <$> product ls')
  end.

(** [os.path.join(a, b)] of [posixpath]. *)
Definition starts_with_sep (s : string) : bool :=
  match s with String "/" _ => true | _ => false end.

Fixpoint ends_with_sep (s : string) : bool :=
  match s with
  | "" => false
  | String c "" => if Ascii.eqb c "/" then true else false
  | String _ s' => ends_with_sep s'
  end.

Definition path_join (a b : string) : string :=
  if starts_with_sep b then b
  else if (String.eqb a "" || ends_with_sep a)%bool then a +:+ b
  else a +:+ "/" +:+ b.

(** Lexicographic order on tuples of integers, and [sorted(list(set(l)))]. *)
Fixpoint tuple_ltb (a b : list Z) : bool :=
  match a, b with
  | [], [] => false
  | [], _ :: _ => true
  | _ :: _, [] => false
  | x :: a', y :: b' => (x <? y) || ((x =? y) && tuple_ltb a' b')
  end.

Fixpoint insert_sorted (x : list Z) (l : list (list Z)) : list (list Z) :=
  match l with
  | [] => [x]
  | y :: l' => if decide (x = y) then l
               else if tuple_ltb x y then x :: l
               else y :: insert_sorted x l'
  end.

Definition sorted_set (l : list (list Z)) : list (list Z) :=
  foldr insert_sorted [] l.

(** *** State and exceptions

    A computation reads and changes a state [S]; when it raises, the
    state is the one reached at the point of the raise (assignments made
    before it stay made, as in Python). *)
Definition ST (S A : Type) : Type := S → result A * S.

Definition ret {S A} (a : A) : ST S A := λ s, (Ok a, s).
Definition raise {S A} (e : exn) : ST S A := λ s, (Raise e, s).
Definition timeout {S A} : ST S A := λ s, (Timeout, s).
Definition lift {S A} (r : result A) : ST S A := λ s, (r, s).
Definition get_state {S} : ST S S := λ s, (Ok s, s).
Definition modify {S} (f : S → S) : ST S unit := λ s, (Ok tt, f s).

Definition bind {S A B} (m : ST S A) (k : A → ST S B) : ST S B :=
  λ s, match m s with
       | (Ok a, s') => k a s'
       | (Raise e, s') => (Raise e, s')
       | (Timeout, s') => (Timeout, s')
       end.

(** [try: m  except Exception as e: h e] *)
Definition try_except {S A} (m : ST S A) (h : exn → ST S A) : ST S A :=
  λ s, match m s with
       | (Raise e, s') => h e s'
       | r => r
       end.

(** [v is None] *)
Definition is_None {A} (v : option A) : bool :=
  match v with None => true | Some _ => false end.

(** Reading a local variable that may not have been assigned yet. *)
Definition read_local {S A} (name : string) (v : option A) : ST S A :=
  match v with
  | Some a => ret a
  | None => raise (UnboundLocalError name)
  end.

End Py.

Import Py.

Declare Scope py_scope.
Delimit Scope py_scope with py.
Notation "x <- m ;; k" := (bind m (λ x, k))
  (at level 100, m at next level, right associativity) : py_scope.
Notation "m ;;; k" := (bind m (λ _, k))
  (at level 100, right associativity) : py_scope.
Open Scope py_scope.

(** ** BoundedRecentCache: [job_runner.LRUCache] *)

Module LRUCache.
Section LRU.
Context `{Countable K} {V : Type}.

Record t : Type := Build {
  cache : gmap K V;
  key_order : list K;
  max_items : Z
}.

Definition __init__ (max_items : Z) : t :=
  {| cache := ∅; key_order := []; max_items := max_items |}.

Definition set_cache (c : gmap K V) (self : t) : t :=
  {| cache := c; key_order := key_order self; max_items := max_items self |}.
Definition set_key_order (ko : list K) (self : t) : t :=
  {| cache := cache self; key_order := ko; max_items := max_items self |}.

(** [self.key_order.remove(key)] *)
Definition key_order_remove (key : K) : ST t unit :=
  self <- get_state ;;
  match remove_first key (key_order self) with
  | Some ko => modify (set_key_order ko)
  | None => raise ValueError
  end.

(** [del self.cache[remove]] *)
Definition cache_del (remove : K) : ST t unit :=
  self <- get_state ;;
  match cache self !! remove with
  | Some _ => modify (set_cache (delete remove (cache self)))
  | None => raise KeyError
  end.

(** The ten [gc.collect()] calls have no effect on the cache object. *)
Definition _mark (key : K) : ST t unit :=
  self <- get_state ;;
  (if decide (key ∈ key_order self) then key_order_remove key else ret tt) ;;;
  modify (λ self, set_key_order (key :: key_order self) self) ;;;
  self <- get_state ;;
  if Z.of_nat (length (key_order self)) >? max_items self then
    remove <- lift (index (key_order self) (max_items self)) ;;
    cache_del remove ;;;
    key_order_remove remove
  else ret tt.

Definition __setitem__ (key : K) (value : V) : ST t unit :=
  modify (λ self, set_cache (<[key := value]> (cache self)) self) ;;;
  _mark key.

Definition __getitem__ (key : K) : ST t V :=
  self <- get_state ;;
  value <- try_except
             (match cache self !! key with
              | Some v => ret v
              | None => raise KeyError
              end)
             (λ _, raise KeyError) ;;
  _mark key ;;;
  ret value.

Definition __contains__ (obj : K) (self : t) : bool :=
  bool_decide (is_Some (cache self !! obj)).

(** *** The states the properties are stated about *)

(** The recency order once [key] has been moved to the front. *)
Definition touched (key : K) (self : t) : list K :=
  key :: filter (λ k, k ≠ key) (key_order self).

(** The cache as [_mark key] leaves it: [key] in front, and the last key
    of the order dropped from the order and from the dictionary when the
    order has grown past [max_items]. *)
Definition marked (key : K) (self : t) : t :=
  if Z.of_nat (length (touched key self)) >? max_items self then
    {| cache := delete (List.last (touched key self) key) (cache self);
       key_order := removelast (touched key self);
       max_items := max_items self |}
  else set_key_order (touched key self) self.

(** The recency order has no key twice, holds exactly the keys of the
    dictionary, and is no longer than [max_items]. *)
Definition inv (self : t) : Prop :=
  NoDup (key_order self)
  ∧ (∀ k, k ∈ key_order self ↔ is_Some (cache self !! k))
  ∧ Z.of_nat (length (key_order self)) ≤ max_items self.

(** A get or a put, as a caller issues them. *)
Inductive op : Type :=
| Get (key : K)
| Put (key : K) (value : V).

Definition step (o : op) (self : t) : t :=
  match o with
  | Get key => snd (__getitem__ key self)
  | Put key value => snd (__setitem__ key value self)
  end.

Definition run_ops (ops : list op) (self : t) : t :=
  foldl (λ c o, step o c) self ops.

(** The caches that gets and puts lead to from [LRUCache(max_items)]. *)
Definition reachable (max_items : Z) (self : t) : Prop :=
  ∃ ops, self = run_ops ops (__init__ max_items).

End LRU.
Arguments t K {_ _} V.
End LRUCache.

(** ** InstructionExecutor: [job_runner.LambdaPackExecutor]

    [Program] and the instructions are external.  Everything they can
    read or change (program state, stored blocks, the cache, the compute
    resource) is one state [Σ]; a hook or an instruction is a computation
    on it that may raise. *)

Module LambdaPackExecutor.

(** [lp.EC] *)
Inductive EC : Type := SUCCESS | EXCEPTION | RUNNING.

(** What the executor did, in order.  The log is kept by the embedding;
    it records every call the source makes on the program and on an
    instruction. *)
Inductive event : Type :=
| PreOp (pc : Z)
| Call (pc : Z) (n : nat)
| PostOp (pc : Z) (outcome : EC) (tb : option string).

Section Executor.
Context {Σ : Type}.

Definition instr : Type := ST Σ unit.

Record Program : Type := {
  queue_urls : list string;
  inst_blocks : Z → option (list instr);
  pre_op : Z → ST Σ unit;
  post_op : Z → EC → option string → ST Σ (option Z);
  program_status : Σ → EC
}.

Definition X (A : Type) : Type := ST (Σ * list event) A.

Definition emit (e : event) : X unit := modify (λ '(σ, log), (σ, log ++ [e])).

(** Running a computation of the program or of an instruction. *)
Definition call {A} (m : ST Σ A) : X A :=
  λ '(σ, log), let '(r, σ') := m σ in (r, (σ', log)).

(** [for instr in instrs: ... res = await instr() ...] *)
Fixpoint run_instrs (pc : Z) (n : nat) (instrs : list instr) : X unit :=
  match instrs with
  | [] => ret tt
  | i :: rest =>
      emit (Call pc n) ;;;
      call i ;;;
      run_instrs pc (S n) rest
  end.

(** The body of [for pc in pcs], returning the worklist as the body
    leaves it. *)
Definition run_pc (program : Program) (pcs : list Z) (pc : Z) : X (list Z) :=
  emit (PreOp pc) ;;;
  call (pre_op program pc) ;;;
  instrs <- match inst_blocks program pc with
            | Some instrs => ret instrs
            | None => raise KeyError
            end ;;
  try_except
    (run_instrs pc 0 instrs ;;;
     emit (PostOp pc SUCCESS None) ;;;
     next_pc <- call (post_op program pc SUCCESS None) ;;
     match next_pc with
     | Some next => ret (pcs ++ [next])
     | None => ret pcs
     end)
    (λ e,
       let tb := format_exc e in
       emit (PostOp pc EXCEPTION (Some tb)) ;;;
       call (post_op program pc EXCEPTION (Some tb)) ;;;
       raise e).

(** [for pc in pcs] over a list that the body appends to: position [i]
    of the current list is visited next. *)
Fixpoint run_from (fuel : nat) (program : Program) (pcs : list Z) (i : nat) : X unit :=
  match pcs !! i with
  | None => ret tt
  | Some pc =>
      match fuel with
      | O => timeout
      | S fuel' =>
          pcs' <- run_pc program pcs pc ;;
          run_from fuel' program pcs' (S i)
      end
  end.

Definition run (fuel : nat) (program : Program) (pc : Z) : X unit :=
  run_from fuel program [pc] 0.

(** *** The runs the properties are stated about *)

(** The instructions of a block one after the other, outside the
    executor. *)
Fixpoint exec_all (instrs : list instr) : ST Σ unit :=
  match instrs with
  | [] => ret tt
  | i :: rest => i ;;; exec_all rest
  end.

Definition calls_of (pc : Z) (first n : nat) : list event :=
  Call pc <$> seq first n.

(** The events of a block of [n] instructions that ran to its end. *)
Definition block_events (pc : Z) (n : nat) : list event :=
  PreOp pc :: calls_of pc 0 n ++ [PostOp pc SUCCESS None].

(** The events of a block whose instruction [k] raised [e]. *)
Definition failure_events (pc : Z) (k : nat) (e : exn) : list event :=
  PreOp pc :: calls_of pc 0 (S k) ++ [PostOp pc EXCEPTION (Some (format_exc e))].

(** From [σ] the block of [pc] runs to its end: [pre_op] returns, each of
    the [n] instructions returns, and [post_op pc SUCCESS] answers [next]
    and leaves [σ']. *)
Definition block_ok (program : Program) (pc : Z) (σ : Σ) (next : option Z) (σ' : Σ)
    (n : nat) : Prop :=
  ∃ instrs σ1 σ2,
    inst_blocks program pc = Some instrs ∧ n = length instrs
    ∧ pre_op program pc σ = (Ok tt, σ1)
    ∧ exec_all instrs σ1 = (Ok tt, σ2)
    ∧ post_op program pc SUCCESS None σ2 = (Ok next, σ').

(** From [σ] instruction [k] of the block of [pc] raises [e] and leaves
    [σ3], the instructions before it having returned. *)
Definition block_raises (program : Program) (pc : Z) (σ : Σ) (e : exn) (σ3 : Σ)
    (k : nat) : Prop :=
  ∃ done bad rest σ1 σ2,
    inst_blocks program pc = Some (done ++ bad :: rest) ∧ k = length done
    ∧ pre_op program pc σ = (Ok tt, σ1)
    ∧ exec_all done σ1 = (Ok tt, σ2)
    ∧ bad σ2 = (Raise e, σ3).

(** The chain of counters from [pc]: every block runs to its end and
    [post_op] names the next counter, until it names none. *)
Inductive chain (program : Program) : Z → Σ → list Z → list event → Σ → Prop :=
| chain_last pc σ σ' n :
    block_ok program pc σ None σ' n →
    chain program pc σ [pc] (block_events pc n) σ'
| chain_next pc σ σ1 next n visited evs σ' :
    block_ok program pc σ (Some next) σ1 n →
    chain program next σ1 visited evs σ' →
    chain program pc σ (pc :: visited) (block_events pc n ++ evs) σ'.

(** The chain from [pc] gets as far as counter [pc'], about to start. *)
Inductive reaches (program : Program) : Z → Σ → list Z → list event → Z → Σ → Prop :=
| reaches_here pc σ : reaches program pc σ [] [] pc σ
| reaches_next pc σ σ1 next n visited evs pc' σ' :
    block_ok program pc σ (Some next) σ1 n →
    reaches program next σ1 visited evs pc' σ' →
    reaches program pc σ (pc :: visited) (block_events pc n ++ evs) pc' σ'.

End Executor.
Arguments Program Σ : clear implicits.
Arguments instr Σ : clear implicits.
End LambdaPackExecutor.

(** ** WorkerLoop: the poll cycle of [job_runner.lambdapack_run_async]

    The queue service is external: its state is [Q] and
    [receive_message QueueUrl MaxNumberOfMessages] is whatever the client
    answers.  The answer is a dictionary that has the key ["Messages"]
    or not. *)

Module WorkerLoop.

Record message : Type := { ReceiptHandle : string; Body : string }.
Record response : Type := { Messages : option (list message) }.

(** The calls made on the queue client, in order (kept by the embedding). *)
Inductive request : Type :=
| ReceiveMessage (QueueUrl : string) (MaxNumberOfMessages : Z).

(** The function's local variables that the [for] loop assigns; a Python
    loop leaves them bound to their last values, and they stay bound from
    one cycle of [while(True)] to the next. *)
Record locals : Type := {
  queue_url : option string;
  messages : option response
}.

Definition unbound : locals := {| queue_url := None; messages := None |}.

Section Worker.
Context {Q : Type}.
Variable receive_message : string → Z → ST Q response.

Definition W (A : Type) : Type := ST (Q * list request) A.

Definition sqs_receive (url : string) (n : Z) : W response :=
  λ '(q, log), let '(r, q') := receive_message url n q in
               (r, (q', log ++ [ReceiveMessage url n])).

(** [for queue_url in ...: messages = await receive_message(
    QueueUrl=queue_url, MaxNumberOfMessages=1); if "Messages" not in
    messages: continue  else: break] *)
Fixpoint poll_queues (urls : list string) (loc : locals) : W locals :=
  match urls with
  | [] => ret loc
  | url :: rest =>
      msgs <- sqs_receive url 1 ;;
      let loc' := {| queue_url := Some url; messages := Some msgs |} in
      match Messages msgs with
      | None => poll_queues rest loc'
      | Some _ => ret loc'
      end
  end.

(** One cycle of the [while(True)] loop up to [msg = messages["Messages"][0]]:
    [None] is the [continue] taken when no queue answered with a message. *)
Definition select_message (queue_urls : list string) (loc : locals)
  : W (locals * option (string * message)) :=
  loc' <- poll_queues (rev queue_urls) loc ;;
  msgs <- read_local "messages" (messages loc') ;;
  match Messages msgs with
  | None => ret (loc', None)
  | Some l =>
      msg <- lift (index l 0) ;;
      url <- read_local "queue_url" (queue_url loc') ;;
      ret (loc', Some (url, msg))
  end.

(** *** The polls the properties are stated about *)

(** Asked one after the other from [q], the queues [urls] each answer
    without a message; the service is left in [q']. *)
Inductive all_empty : list string → Q → Q → Prop :=
| all_empty_nil q : all_empty [] q q
| all_empty_cons url urls q q1 q' r :
    receive_message url 1 q = (Ok r, q1) →
    Messages r = None →
    all_empty urls q1 q' →
    all_empty (url :: urls) q q'.

(** One request per queue of [urls], in order, each for one message. *)
Definition requests (urls : list string) : list request :=
  (λ url, ReceiveMessage url 1) <$> urls.

End Worker.
End WorkerLoop.

(** ** Blocks and the object store *)

(** A block is a numpy array: its shape and its element at each index
    tuple.  [R] is the element type given by the matrix's dtype. *)
Record ndarray (R : Type) : Type := {
  nd_shape : list Z;
  nd_at : list Z → R
}.
Arguments nd_shape {R} _.
Arguments nd_at {R} _ _.

(** [X.T]: the axes reversed. *)
Definition transpose {R} (X : ndarray R) : ndarray R :=
  {| nd_shape := rev (nd_shape X); nd_at := λ i, nd_at X (rev i) |}.

(** What the code needs of the dtype: addition of a scalar to an element
    and [np.allclose] on two blocks. *)
Class Dtype (R : Type) : Type := {
  dt_add : R → R → R;
  allclose : ndarray R → ndarray R → bool
}.

(** [idxs = np.diag_indices(X.shape[0]); X[idxs] += lambdav]: indexes the
    first two axes with [(0,0), (1,1), ..., (n-1,n-1)], so the array needs
    two axes and the second must be at least as long as the first. *)
Definition add_diag `{Dtype R} (lambdav : R) (X : ndarray R) : result (ndarray R) :=
  match nd_shape X with
  | n :: m :: _ =>
      if n <=? m then
        Ok {| nd_shape := nd_shape X;
              nd_at := λ i, match i with
                            | r :: c :: _ =>
                                if (r =? c) && (0 <=? r) && (r <? n)
                                then dt_add (nd_at X i) lambdav else nd_at X i
                            | _ => nd_at X i
                            end |}
      else Raise IndexError
  | _ => Raise IndexError
  end.

Module S3.

(** Calls made on the object-store client, in order (kept by the
    embedding). *)
Inductive call : Type :=
| HeadObject (Key : string)
| GetObject (Key : string)
| PutObject (Key : string).

Section Store.
Context {R : Type}.

(** One bucket.  An object holds the bytes [np.save] wrote; the embedding
    keeps the array they decode to ([np.load] after [np.save] gives the
    array back).  [faults] says, for the coming [get_object] calls in
    order, which ones fail transiently; past its end no call fails. *)
Record bucket : Type := {
  objects : gmap string (ndarray R);
  faults : list bool;
  calls : list call
}.

Definition log (c : call) (w : bucket) : bucket :=
  {| objects := objects w; faults := faults w; calls := calls w ++ [c] |}.

(** Modelled from the spec: [matrix_utils.key_exists_async], which
    [matrix.py] imports and which is not in [matrix_utils.py]; the spec
    has it check existence in the object store. *)
Definition key_exists_async (key : string) : ST bucket bool :=
  λ w, (Ok (bool_decide (is_Some (objects w !! key))), log (HeadObject key) w).

(** [client.get_object(Bucket=..., Key=key)] followed by reading the body. *)
Definition get_object (key : string) : ST bucket (ndarray R) :=
  λ w, let w' := {| objects := objects w; faults := tail (faults w);
                    calls := calls w ++ [GetObject key] |} in
       match faults w with
       | true :: _ => (Raise (ClientError "transient read failure"), w')
       | _ => match objects w !! key with
              | Some X => (Ok X, w')
              | None => (Raise (ClientError "NoSuchKey"), w')
              end
       end.

(** [client.put_object(Key=key, Bucket=..., Body=...)] *)
Definition put_object (key : string) (X : ndarray R) : ST bucket unit :=
  λ w, (Ok tt, {| objects := <[key := X]> (objects w); faults := faults w;
                  calls := calls w ++ [PutObject key] |}).

(** The calls a computation added to the log, between [w] and [w']. *)
Definition new_calls (w w' : bucket) : list call :=
  drop (length (calls w)) (calls w').

End Store.
Arguments bucket R : clear implicits.
End S3.

(** ** ShardedArray: [matrix.BigMatrix] *)

Module BigMatrix.
Section BigMatrix.
Context `{Dtype R}.

(** The attributes [__init__] sets.  [parent_fn] is the producer already
    applied to [self]; it computes a block and does no I/O of its own.
    [symmetric] is [True] exactly on a [BigSymmetricMatrix], the only
    class with [lambdav]. *)
Record t : Type := {
  key_base : string;
  shape : list Z;
  shard_sizes : list Z;
  parent_fn : option (list Z → result (ndarray R));
  symmetric : bool;
  lambdav : R
}.

Definition real_idx_axis (self : t) (block_idx : list Z) (i : nat) : result (Z * Z) :=
  rbind (index block_idx (Z.of_nat i)) (λ b,
  rbind (index (shard_sizes self) (Z.of_nat i)) (λ ss,
  let start := b * ss in
  rbind (index (shape self) (Z.of_nat i)) (λ sh,
  let end_ := Z.min (start + ss) sh in
  Ok (start, end_)))).

(** The range of axis [i] as a total function: the defaults are what a
    lookup out of range would give, and a lookup in range never uses them. *)
Definition axis_range (self : t) (block_idx : list Z) (i : nat) : Z * Z :=
  let b := default 0 (block_idx !! i) in
  let ss := default 0 (shard_sizes self !! i) in
  let sh := default 0 (shape self !! i) in
  (b * ss, Z.min (b * ss + ss) sh).

Definition __block_idx_to_real_idx__ (self : t) (block_idx : list Z)
  : result (list (Z * Z)) :=
  rmapM (real_idx_axis self block_idx) (seq 0 (length (shape self))).

Fixpoint key_string (real_idxs : list (Z * Z)) (shard_sizes : list Z) : string :=
  match real_idxs, shard_sizes with
  | (sidx, eidx) :: real_idxs', shard_size :: shard_sizes' =>
      pretty sidx +:+ "_" +:+ pretty eidx +:+ "_" +:+ pretty shard_size +:+ "_"
      +:+ key_string real_idxs' shard_sizes'
  | _, _ => ""
  end.

Definition __get_matrix_shard_key__ (self : t) (real_idxs : list (Z * Z)) : string :=
  path_join (key_base self) (key_string real_idxs (shard_sizes self)).

Definition __shard_idx_to_key__ (self : t) (block_idx : list Z) : result string :=
  rbind (__block_idx_to_real_idx__ self block_idx) (λ real_idxs,
  Ok (__get_matrix_shard_key__ self real_idxs)).

Definition max_n_tries : Z := 5.

(** The [while bio is None and n_tries <= max_n_tries] loop.  The handler
    is [raise] followed by [n_tries += 1]. *)
Fixpoint read_loop (fuel : nat) (key : string) (bio : option (ndarray R)) (n_tries : Z)
  : ST (S3.bucket R) (option (ndarray R)) :=
  if is_None bio && (n_tries <=? max_n_tries) then
    match fuel with
    | O => timeout
    | S fuel' =>
        st <- try_except
                (matrix_bytes <- S3.get_object key ;;
                 ret (Some matrix_bytes, n_tries))
                (λ e, (raise e : ST _ unit) ;;; ret (bio, n_tries + 1)) ;;
        read_loop fuel' key (fst st) (snd st)
    end
  else ret bio.

Definition __s3_key_to_byte_io__ (fuel : nat) (self : t) (key : string)
  : ST (S3.bucket R) (ndarray R) :=
  bio <- read_loop fuel key None 0 ;;
  match bio with
  | None => raise (Exception "S3 Read Failed")
  | Some b => ret b
  end.

Definition __save_matrix_to_s3__ (self : t) (X : ndarray R) (out_key : string)
  : ST (S3.bucket R) unit :=
  S3.put_object out_key X.

Definition get_block_async (fuel : nat) (self : t) (block_idx : list Z)
  : ST (S3.bucket R) (ndarray R) :=
  if negb (length block_idx =? length (shape self))%nat then
    raise (Exception "Get block query does not match shape")
  else
    key <- lift (__shard_idx_to_key__ self block_idx) ;;
    exists_ <- S3.key_exists_async key ;;
    match exists_, parent_fn self with
    | false, None =>
        raise (Exception "Key does {0} not exist, and no parent function prescripted")
    | false, Some f => lift (f block_idx)
    | true, _ => __s3_key_to_byte_io__ fuel self key
    end.

Definition put_block_async (fuel : nat) (self : t) (block : ndarray R)
    (block_idx : list Z) (no_overwrite : bool) : ST (S3.bucket R) unit :=
  key <- lift (__shard_idx_to_key__ self block_idx) ;;
  (if no_overwrite then
     exists_ <- S3.key_exists_async key ;;
     if exists_ : bool then
       old_block <- get_block_async fuel self block_idx ;;
       if allclose old_block block then ret tt else raise AssertionError
     else ret tt
   else ret tt) ;;;
  real_idxs <- lift (__block_idx_to_real_idx__ self block_idx) ;;
  let current_shape := (λ se, snd se - fst se) <$> real_idxs in
  if bool_decide (nd_shape block ≠ current_shape) then
    raise (Exception "Incompatible block size")
  else __save_matrix_to_s3__ self block key.

(** The header object, without its pickled dtype. *)
Record header : Type := Header {
  header_shape : list Z;
  header_shard_sizes : list Z
}.

(** [__read_header__]: the header stored under [key_base/header], [None]
    when reading it fails in any way.  The header objects of a bucket are
    a map from their keys. *)
Definition __read_header__ (key_base : string) : ST (gmap string header) (option header) :=
  λ hs, (Ok (hs !! path_join key_base "header"), hs).

Definition __write_header__ (key_base : string) (shape shard_sizes : list Z)
  : ST (gmap string header) unit :=
  modify (λ hs, <[path_join key_base "header" := Header shape shard_sizes]> hs).

(** [BigMatrix.__init__] with a bucket given.  [symmetric] and [lambdav]
    are what the constructor of the class of the object sets after it
    ([False] on a [BigMatrix]). *)
Definition __init__ (key : string) (shape shard_sizes : option (list Z))
    (prefix : string) (parent_fn : option (list Z → result (ndarray R)))
    (write_header : bool) (symmetric : bool) (lambdav : R)
  : ST (gmap string header) t :=
  let key_base := path_join prefix key in
  header <- (if is_None shape || is_None shard_sizes
             then __read_header__ key_base else ret None) ;;
  dims <- match header, shape with
          | None, None => raise (Exception "Header doesn't exist and no shape provided.")
          | Some h, None => ret (header_shape h, Some (header_shard_sizes h))
          | _, Some shape => ret (shape, shard_sizes)
          end ;;
  match snd dims with
  | None => raise (Exception "shard_sizes should be same length as shape.")
  | Some shard_sizes =>
      if negb (length (fst dims) =? length shard_sizes)%nat then
        raise (Exception "shard_sizes should be same length as shape.")
      else
        (if write_header then __write_header__ key_base (fst dims) shard_sizes
         else ret tt) ;;;
        ret {| key_base := key_base; shape := fst dims; shard_sizes := shard_sizes;
               parent_fn := parent_fn; symmetric := symmetric; lambdav := lambdav |}
  end.

(** [all_blocks] of [_blocks]: for each axis the list of [(start, end)]. *)
Definition blocks_axis (self : t) (i : nat) : result (list (Z * Z)) :=
  rbind (index (shape self) (Z.of_nat i)) (λ sh,
  rbind (index (shard_sizes self) (Z.of_nat i)) (λ ss,
  rbind (range 0 sh ss) (λ js,
  let blocks_axis := (λ j, (j, j + ss)) <$> js in
  rbind (index blocks_axis (-1)) (λ last,
  let blocks_axis := if snd last >? sh then removelast blocks_axis else blocks_axis in
  rbind (index blocks_axis (-1)) (λ last,
  Ok (if snd last <? sh then blocks_axis ++ [(snd last, sh)] else blocks_axis)))))).

Definition all_blocks (self : t) : result (list (list (Z * Z))) :=
  rmapM (blocks_axis self) (seq 0 (length (shape self))).

(** [_blocks(axis=None)] and [_blocks(axis)] for an integer [axis]. *)
Definition _blocks (self : t) : result (list (list (Z * Z))) :=
  rbind (all_blocks self) (λ all, Ok (product all)).

Definition _blocks_axis (self : t) (axis : Z) : result (list (Z * Z)) :=
  rbind (all_blocks self) (λ all, index all axis).

(** [idxs] of [_block_idxs]. *)
Definition idxs (self : t) : result (list (list Z)) :=
  rmapM (λ i, rbind (_blocks_axis self (Z.of_nat i)) (λ bs,
              Ok (Z.of_nat <$> seq 0 (length bs))))
        (seq 0 (length (shape self))).

(** [_block_idxs(axis=None)] and [_block_idxs(axis)] for an integer [axis]. *)
Definition _block_idxs (self : t) : result (list (list Z)) :=
  rbind (idxs self) (λ idxs, Ok (product idxs)).

Definition _block_idxs_axis (self : t) (axis : Z) : result (list Z) :=
  rbind (idxs self) (λ idxs, index idxs axis).

End BigMatrix.
Arguments t R : clear implicits.
End BigMatrix.

(** ** SymmetricShardedArray: [matrix.BigSymmetricMatrix] *)

Module BigSymmetricMatrix.
Section BigSymmetricMatrix.
Context `{Dtype R}.
Local Abbreviation t := (BigMatrix.t R).

Definition _symmetrize_idx (block_idx : list Z) : result (list Z) :=
  rbind (index block_idx 0) (λ first,
  rbind (index block_idx (-1)) (λ last,
  if first >? last then Ok block_idx else Ok (rev block_idx))).

Definition _symmetrize_all_idxs (all_block_idxs : list (list Z)) : result (list (list Z)) :=
  rbind (rmapM _symmetrize_idx all_block_idxs) (λ l, Ok (sorted_set l)).

Definition _block_idxs (self : t) : result (list (list Z)) :=
  rbind (BigMatrix._block_idxs self) _symmetrize_all_idxs.

Definition get_block_async (fuel : nat) (self : t) (block_idx : list Z)
  : ST (S3.bucket R) (ndarray R) :=
  block_idx_sym <- lift (_symmetrize_idx block_idx) ;;
  let flipped := bool_decide (block_idx_sym ≠ block_idx) in
  key <- lift (BigMatrix.__shard_idx_to_key__ self block_idx_sym) ;;
  exists_ <- S3.key_exists_async key ;;
  X_block <- match exists_, BigMatrix.parent_fn self with
             | false, None =>
                 raise (Exception ("Key " +:+ key +:+
                          " does not exist, and no parent function prescripted"))
             | false, Some f => lift (f block_idx_sym)
             | true, _ => BigMatrix.__s3_key_to_byte_io__ fuel self key
             end ;;
  let X_block := if flipped then transpose X_block else X_block in
  if (length (remove_dups block_idx) =? 1)%nat then
    lift (add_diag (BigMatrix.lambdav self) X_block)
  else ret X_block.

Definition put_block_async (fuel : nat) (self : t) (block : ndarray R)
    (block_idx : list Z) (no_overwrite : bool) : ST (S3.bucket R) unit :=
  (* [key] is a local of the function; its only assignment is further down *)
  let key : option string := None in
  (if no_overwrite then
     k <- read_local "key" key ;;
     exists_ <- S3.key_exists_async k ;;
     if exists_ : bool then
       old_block <- get_block_async fuel self block_idx ;;
       if allclose old_block block then ret tt else raise AssertionError
     else ret tt
   else ret tt) ;;;
  block_idx_sym <- lift (_symmetrize_idx block_idx) ;;
  let block := if bool_decide (block_idx_sym ≠ block_idx) then transpose block else block in
  real_idxs <- lift (BigMatrix.__block_idx_to_real_idx__ self block_idx_sym) ;;
  let current_shape := (λ se, snd se - fst se) <$> real_idxs in
  if bool_decide (nd_shape block ≠ current_shape) then
    raise (Exception "Incompatible block size")
  else
    key <- lift (BigMatrix.__shard_idx_to_key__ self block_idx) ;;
    BigMatrix.__save_matrix_to_s3__ self block key.

End BigSymmetricMatrix.
End BigSymmetricMatrix.

(** ** Calls through an object: the method of the object's class runs *)

Section Dispatch.
Context `{Dtype R}.

(** [BigMatrix.get_block], which [BigSymmetricMatrix] inherits: it runs
    [self.get_block_async(loop, *block_idx)] to completion. *)
Definition get_block (fuel : nat) (self : BigMatrix.t R) (block_idx : list Z)
  : ST (S3.bucket R) (ndarray R) :=
  if BigMatrix.symmetric self
  then BigSymmetricMatrix.get_block_async fuel self block_idx
  else BigMatrix.get_block_async fuel self block_idx.

(** The property [block_idxs]: [return self._block_idxs()]. *)
Definition block_idxs (self : BigMatrix.t R) : result (list (list Z)) :=
  if BigMatrix.symmetric self
  then BigSymmetricMatrix._block_idxs self
  else BigMatrix._block_idxs self.

End Dispatch.

(** ** ShardedArrayView: [matrix.BigMatrixView] *)

Module BigMatrixView.

(** A Python [slice] object, and a slice whose [None]s have been replaced. *)
Record pyslice : Type := PySlice {
  py_start : option Z;
  py_stop : option Z;
  py_step : option Z
}.

Record slice : Type := Slice {
  start : Z;
  stop : Z;
  step : Z
}.

(** [a % b] and [a // b] on integers. *)
Definition mod_ (a b : Z) : result Z :=
  if b =? 0 then Raise ZeroDivisionError else Ok (a `mod` b).
Definition floordiv (a b : Z) : result Z :=
  if b =? 0 then Raise ZeroDivisionError else Ok (a `div` b).

Section BigMatrixView.
Context `{Dtype R}.

Record t : Type := {
  parent : BigMatrix.t R;
  transposed : bool;
  shard_sizes : list Z;
  parent_slices : list slice;
  shape : list Z;
  axis_lens : list Z
}.

(** The body of [for i, parent_slice in enumerate(parent_slices)] of
    [__init__]: the slice stored and the extent appended to [shape]. *)
Definition init_axis (parent : BigMatrix.t R) (axis_lens : list Z)
    (i : nat) (parent_slice : pyslice) : result (slice * Z) :=
  let shard_sizes := BigMatrix.shard_sizes parent in
  let start := default 0 (py_start parent_slice) in
  rbind (match py_stop parent_slice with
         | Some s => Ok s
         | None => index axis_lens (Z.of_nat i)
         end) (λ stop,
  let step := default 1 (py_step parent_slice) in
  rbind (index shard_sizes (Z.of_nat i)) (λ ss,
  rbind (ceil_div (stop - start) step) (λ n,
  let extent := ss * n in
  rbind (index axis_lens (Z.of_nat i)) (λ axis_len,
  rbind (if stop =? axis_len then
           rbind (mod_ (stop - 1 - start) step) (λ r,
           if r =? 0 then
             rbind (index (BigMatrix.shape parent) (Z.of_nat i)) (λ sh,
             rbind (mod_ sh ss) (λ rem,
             Ok (if negb (rem =? 0) then extent + (rem - ss) else extent)))
           else Ok extent)
         else Ok extent) (λ extent,
  Ok (Slice start stop step, extent)))))).

(** [for i in range(len(self.parent_slices), len(self.parent.shape))] *)
Definition trailing_axis (parent : BigMatrix.t R) (axis_lens : list Z) (i : nat)
  : result (slice * Z) :=
  rbind (index axis_lens (Z.of_nat i)) (λ axis_len,
  rbind (index (BigMatrix.shape parent) (Z.of_nat i)) (λ sh,
  Ok (Slice 0 axis_len 1, sh))).

Definition __init__ (parent : BigMatrix.t R) (parent_slices : list pyslice)
    (transposed : bool) : result t :=
  let shard_sizes := BigMatrix.shard_sizes parent in
  let rank := length (BigMatrix.shape parent) in
  rbind (rmapM (λ i, rbind (index (BigMatrix.shape parent) (Z.of_nat i)) (λ sh,
                     rbind (index shard_sizes (Z.of_nat i)) (λ ss,
                     ceil_div sh ss)))
               (seq 0 rank)) (λ axis_lens,
  rbind (rmapM (λ ip, init_axis parent axis_lens (fst ip) (snd ip))
               (imap pair parent_slices)) (λ given,
  rbind (rmapM (trailing_axis parent axis_lens)
               (seq (length given) (rank - length given))) (λ trailing,
  let slices := fst <$> (given ++ trailing) in
  let shape := snd <$> (given ++ trailing) in
  let shape := if transposed then rev shape else shape in
  let shard_sizes := if transposed then rev shard_sizes else shard_sizes in
  if negb (length shard_sizes =? length shape)%nat then Raise AssertionError
  else Ok {| parent := parent; transposed := transposed;
             shard_sizes := shard_sizes; parent_slices := slices;
             shape := shape; axis_lens := axis_lens |}))).

(** [for i in range(len(self.shape)): if self.shape[i] <= self.shard_sizes[i]:
    intermediate_idx.insert(i, 0)] *)
Fixpoint insert_single_block_axes (self : t) (axes : list nat) (intermediate_idx : list Z)
  : result (list Z) :=
  match axes with
  | [] => Ok intermediate_idx
  | i :: axes' =>
      rbind (index (shape self) (Z.of_nat i)) (λ sh,
      rbind (index (shard_sizes self) (Z.of_nat i)) (λ ss,
      insert_single_block_axes self axes'
        (if sh <=? ss then list_insert_at i 0 intermediate_idx else intermediate_idx)))
  end.

(** [for parent_slice, intermediate_elt in zip(...)] of
    [__view_to_parent_block_idx__] *)
Fixpoint translate (slices : list slice) (intermediate_idx : list Z) : result (list Z) :=
  match slices, intermediate_idx with
  | parent_slice :: slices', intermediate_elt :: idx' =>
      let parent_elt := intermediate_elt * step parent_slice + start parent_slice in
      if parent_elt <? 0 then Raise NotImplementedError
      else if parent_elt >=? stop parent_slice then Raise IndexError
      else rbind (translate slices' idx') (λ rest, Ok (parent_elt :: rest))
  | _, _ => Ok []
  end.

Definition __view_to_parent_block_idx__ (self : t) (view_idx : list Z) : result (list Z) :=
  let intermediate_idx := view_idx in
  rbind (if (length view_idx <? length (shape self))%nat
         then insert_single_block_axes self (seq 0 (length (shape self))) intermediate_idx
         else Ok intermediate_idx) (λ intermediate_idx,
  if negb (length intermediate_idx =? length (shape self))%nat then Raise ValueError
  else
    let intermediate_idx := if transposed self then rev intermediate_idx
                            else intermediate_idx in
    translate (parent_slices self) intermediate_idx).

(** [__parent_to_view_block_idx__(parent_idx, axis=None)] *)
Fixpoint to_view (parent_idx : list Z) (slices : list slice) : result (list Z) :=
  match parent_idx, slices with
  | parent_elt :: idx', parent_slice :: slices' =>
      rbind (floordiv (parent_elt - start parent_slice) (step parent_slice)) (λ v,
      rbind (to_view idx' slices') (λ rest, Ok (v :: rest)))
  | _, _ => Ok []
  end.

Definition __parent_to_view_block_idx__ (self : t) (parent_idx : list Z) : result (list Z) :=
  rbind (to_view parent_idx (parent_slices self)) (λ view_idx,
  Ok (if transposed self then rev view_idx else view_idx)).

(** [__is_valid_parent_block_idx__(parent_idx, axis=None)] *)
Fixpoint is_valid (parent_idx : list Z) (slices : list slice) : result bool :=
  match parent_idx, slices with
  | parent_elt :: idx', parent_slice :: slices' =>
      if parent_elt <? 0 then Raise NotImplementedError
      else if parent_elt <? start parent_slice then Ok false
      else if parent_elt >=? stop parent_slice then Ok false
      else rbind (mod_ (parent_elt - start parent_slice) (step parent_slice)) (λ r,
           if negb (r =? 0) then Ok false else is_valid idx' slices')
  | _, _ => Ok true
  end.

Definition __is_valid_parent_block_idx__ (self : t) (parent_idx : list Z) : result bool :=
  is_valid parent_idx (parent_slices self).

(** [list(map(f, filter(p, l)))] *)
Fixpoint map_filter {A B} (p : A → result bool) (f : A → result B) (l : list A)
  : result (list B) :=
  match l with
  | [] => Ok []
  | x :: l' =>
      rbind (p x) (λ keep,
      if keep : bool then
        rbind (f x) (λ y, rbind (map_filter p f l') (λ ys, Ok (y :: ys)))
      else map_filter p f l')
  end.

(** [_block_idxs(axis=None)] on a view that is not transposed; on a
    transposed one [__view_to_parent_axis__(None)] subtracts [None] from
    an integer. *)
Definition _block_idxs (self : t) : result (list (list Z)) :=
  if transposed self then Raise TypeError
  else
    rbind (if BigMatrix.symmetric (parent self)
           then BigSymmetricMatrix._block_idxs (parent self)
           else BigMatrix._block_idxs (parent self)) (λ parent_idxs,
    map_filter (__is_valid_parent_block_idx__ self)
               (__parent_to_view_block_idx__ self) parent_idxs).

(** Calling a value that is a list: ['list' object is not callable]. *)
Definition call_list {A B} (l : list A) : result B := Raise TypeError.

(** The property [block_idxs].  [self.parent.block_idxs] is itself a
    property of the parent, so it evaluates to the parent's list of block
    indices, and the parentheses after it call that list. *)
Definition block_idxs (self : t) : result (list (list Z)) :=
  rbind (rbind (block_idxs (parent self)) call_list) (λ parent_idxs,
  map_filter (__is_valid_parent_block_idx__ self)
             (__parent_to_view_block_idx__ self) parent_idxs).

Definition get_block (fuel : nat) (self : t) (block_idx : list Z)
  : ST (S3.bucket R) (ndarray R) :=
  parent_idx <- lift (__view_to_parent_block_idx__ self block_idx) ;;
  block <- get_block fuel (parent self) parent_idx ;;
  ret (if transposed self then transpose block else block).

End BigMatrixView.
Arguments t R : clear implicits.
End BigMatrixView.

(** ** [BigMatrix.submatrix] *)

(** An argument of [submatrix]: [None], an integer, a sequence of
    integers, or a [slice] object. *)
Inductive block_slice : Type :=
| BNone
| BInt (i : Z)
| BSeq (l : list Z)
| BSlice (s : BigMatrixView.pyslice).

Section Submatrix.
Context `{Dtype R}.

Fixpoint updated_block_slices (block_slices : list block_slice)
  : result (list BigMatrixView.pyslice) :=
  match block_slices with
  | [] => Ok []
  | b :: rest =>
      rbind (match b with
             | BNone => Ok [BigMatrixView.PySlice None None None]
             | BInt i => Ok [BigMatrixView.PySlice (Some i) (Some (i + 1)) (Some 1)]
             | BSeq [a] => Ok [BigMatrixView.PySlice None (Some a) None]
             | BSeq [a; b] => Ok [BigMatrixView.PySlice (Some a) (Some b) None]
             | BSeq [a; b; c] => Ok [BigMatrixView.PySlice (Some a) (Some b) (Some c)]
             | BSeq _ => Raise ValueError
             | BSlice _ => Ok []
             end) (λ s,
      rbind (updated_block_slices rest) (λ ss, Ok (s ++ ss)))
  end.

Definition submatrix (self : BigMatrix.t R) (block_slices : list block_slice)
  : result (BigMatrixView.t R) :=
  rbind (updated_block_slices block_slices) (λ slices,
  BigMatrixView.__init__ self slices false).

End Submatrix.

(** ** Further parts of the code *)

(** *** [matrix_utils.chunk] *)

Module MatrixUtils.

(** [l[a:b]]: an index below zero counts from the end, and both ends are
    clamped to the list. *)
Definition slice_bound {A} (l : list A) (i : Z) : nat :=
  let n := Z.of_nat (length l) in
  Z.to_nat (if i <? 0 then Z.max (i + n) 0 else Z.min i n).

Definition slice {A} (l : list A) (a b : Z) : list A :=
  take (slice_bound l b - slice_bound l a) (drop (slice_bound l a) l).

(** [list(chunk(l, n))]: the generator returns at once when [n == 0]. *)
Definition chunk {A} (l : list A) (n : Z) : result (list (list A)) :=
  if n =? 0 then Ok []
  else rbind (range 0 (Z.of_nat (length l)) n) (λ starts,
       Ok ((λ i, slice l i (i + n)) <$> starts)).

End MatrixUtils.


(** *** The outcomes of a block that the executor's properties name *)

Module ExecutorCases.
Section Cases.
Import LambdaPackExecutor.
Context {Σ : Type}.

(** From [σ] the block of [pc] does not get to its first instruction:
    [pre_op] raises, or the program has no block for [pc]. *)
Definition block_not_started (program : Program Σ) (pc : Z) (σ : Σ) (e : exn) (σ' : Σ)
  : Prop :=
  pre_op program pc σ = (Raise e, σ')
  ∨ (pre_op program pc σ = (Ok tt, σ') ∧ inst_blocks program pc = None ∧ e = KeyError).

(** From [σ] every instruction of the block of [pc] returns and then
    [post_op pc SUCCESS] raises [e], leaving [σ3]. *)
Definition post_op_raises (program : Program Σ) (pc : Z) (σ : Σ) (e : exn) (σ3 : Σ)
    (n : nat) : Prop :=
  ∃ instrs σ1 σ2,
    inst_blocks program pc = Some instrs ∧ n = length instrs
    ∧ pre_op program pc σ = (Ok tt, σ1)
    ∧ exec_all instrs σ1 = (Ok tt, σ2)
    ∧ post_op program pc SUCCESS None σ2 = (Raise e, σ3).

(** Wherever the chain has got to, the block runs to its end and
    [post_op] names a next counter. *)
Definition never_ends (program : Program Σ) (P : Z → Σ → Prop) : Prop :=
  ∀ pc σ, P pc σ → ∃ next σ' n, block_ok program pc σ (Some next) σ' n ∧ P next σ'.
End Cases.
End ExecutorCases.


(** ** WorkerLoop: a whole cycle of [job_runner.lambdapack_run_async]

    After a message is selected the cycle parses its body, runs the
    executor and deletes the message.  The lease renewer the cycle starts
    ([reset_msg_visibility]) is another task and is not part of the
    cycle's own sequence of calls.  [int] is what Python's [int] makes of
    a message body; [delete_message QueueUrl ReceiptHandle] is whatever
    the queue client does. *)

Module WorkerCycle.
Section Cycle.
Import WorkerLoop LambdaPackExecutor.
Context {Q Σ : Type}.
Variable receive_message : string → Z → ST Q response.
Variable delete_message : string → string → ST Q unit.
Variable int : string → result Z.

(** The queue service with the log of receive requests, the delete
    requests made so far as [(QueueUrl, ReceiptHandle)], and the
    executor's state with its log. *)
Record state : Type := {
  sqs : Q * list request;
  deleted : list (string * string);
  exec : Σ * list event
}.

Definition on_sqs {A} (m : ST (Q * list request) A) : ST state A :=
  λ s, let '(r, q) := m (sqs s) in
       (r, {| sqs := q; deleted := deleted s; exec := exec s |}).

Definition on_exec {A} (m : ST (Σ * list event) A) : ST state A :=
  λ s, let '(r, x) := m (exec s) in
       (r, {| sqs := sqs s; deleted := deleted s; exec := x |}).

Definition sqs_delete (url receipt_handle : string) : ST state unit :=
  λ s, let '(r, q) := delete_message url receipt_handle (fst (sqs s)) in
       (r, {| sqs := (q, snd (sqs s));
              deleted := deleted s ++ [(url, receipt_handle)];
              exec := exec s |}).

(** One pass through the body of [while(True)]; the locals the [for]
    loop leaves bound are returned for the next pass. *)
Definition cycle (fuel : nat) (program : Program Σ) (loc : locals) : ST state locals :=
  sel <- on_sqs (select_message receive_message (queue_urls program) loc) ;;
  match snd sel with
  | None => ret (fst sel)
  | Some (url, msg) =>
      let receipt_handle := ReceiptHandle msg in
      pc <- lift (int (Body msg)) ;;
      on_exec (run fuel program pc) ;;;
      sqs_delete url receipt_handle ;;;
      ret (fst sel)
  end.

(** [while(True)]: the handler around it prints and raises again. *)
Fixpoint lambdapack_run_async (cycles fuel : nat) (program : Program Σ) (loc : locals)
  : ST state unit :=
  match cycles with
  | O => timeout
  | S cycles' =>
      loc' <- cycle fuel program loc ;;
      lambdapack_run_async cycles' fuel program loc'
  end.

End Cycle.
Arguments state Q Σ : clear implicits.
End WorkerCycle.


(** *** [BigMatrix.T] and what the properties of blocks and views use *)

Section FurtherMatrix.
Context `{Dtype R}.


(** The number of blocks of axis [i]: [ceil(shape[i] / shard_sizes[i])]. *)
Definition axis_len (self : BigMatrix.t R) (i : nat) : Z :=
  - ((- default 0 (BigMatrix.shape self !! i))
     `div` default 0 (BigMatrix.shard_sizes self !! i)).





(** The extent of each axis of a block's real range. *)
Definition extents (real_idxs : list (Z * Z)) : list Z :=
  (λ se, snd se - fst se) <$> real_idxs.




(** The real range of block [k] of an axis of length [sh] in shards of [ss]. *)
Definition block_range (sh ss : Z) (k : nat) : Z * Z :=
  (Z.of_nat k * ss, Z.min (Z.of_nat k * ss + ss) sh).


End FurtherMatrix.

(** *** Characters of a key, and the order of index tuples *)

(** No character of [s] is [c]. *)
Fixpoint no_char (c : ascii) (s : string) : bool :=
  match s with
  | "" => true
  | String d s' => negb (Ascii.eqb d c) && no_char c s'
  end.

Definition not_digit (c : ascii) : Prop :=
  ∀ d : N, pretty_N_char d ≠ c.


(** The lexicographic order of [tuple_ltb] as a relation. *)
Definition tuple_lt (a b : list Z) : Prop := tuple_ltb a b = true.



(** ** Statements read off the specification, to compare with the code *)

Module Claimed.

(** The canonical index as the specification words it: unchanged when
    the first axis value is not greater than the last, reversed
    otherwise. *)
Definition canonicalize (block_idx : list Z) : result (list Z) :=
  rbind (index block_idx 0) (λ first,
  rbind (index block_idx (-1)) (λ last,
  if first <=? last then Ok block_idx else Ok (rev block_idx))).

(** The real range as the specification words it: the same start and
    end, and [IndexError] when some start is not below the shape. *)
Fixpoint block_to_real_range (shape shard_sizes block_idx : list Z)
  : result (list (Z * Z)) :=
  match shape, shard_sizes, block_idx with
  | sh :: shape', ss :: shard_sizes', b :: block_idx' =>
      let start := b * ss in
      if start >=? sh then Raise IndexError
      else rbind (block_to_real_range shape' shard_sizes' block_idx') (λ rest,
           Ok ((start, Z.min (start + ss) sh) :: rest))
  | _, _, _ => Ok []
  end.

End Claimed.

(** ** Example data *)

Module Examples.

(** All index tuples of an array of the given shape. *)
Definition all_indices (shape : list Z) : list (list Z) :=
  product ((λ n, Z.of_nat <$> seq 0 (Z.to_nat n)) <$> shape).

(** Blocks of integers, compared exactly. *)
#[global] Instance Z_dtype : Dtype Z := {|
  dt_add := Z.add;
  allclose := λ a b,
    bool_decide (nd_shape a = nd_shape b)
    && forallb (λ i, nd_at a i =? nd_at b i) (all_indices (nd_shape a))
|}.

(** A one-axis array of 20 elements in shards of 2: ten blocks. *)
Definition vec20 : BigMatrix.t Z := {|
  BigMatrix.key_base := "numpywren.objects/v";
  BigMatrix.shape := [20];
  BigMatrix.shard_sizes := [2];
  BigMatrix.parent_fn := None;
  BigMatrix.symmetric := false;
  BigMatrix.lambdav := 0
|}.

(** A 4x4 array in 2x2 shards, plain and symmetric. *)
Definition mat44 : BigMatrix.t Z := {|
  BigMatrix.key_base := "numpywren.objects/m";
  BigMatrix.shape := [4; 4];
  BigMatrix.shard_sizes := [2; 2];
  BigMatrix.parent_fn := None;
  BigMatrix.symmetric := false;
  BigMatrix.lambdav := 0
|}.

Definition sym44 : BigMatrix.t Z := {|
  BigMatrix.key_base := "numpywren.objects/s";
  BigMatrix.shape := [4; 4];
  BigMatrix.shard_sizes := [2; 2];
  BigMatrix.parent_fn := None;
  BigMatrix.symmetric := true;
  BigMatrix.lambdav := 0
|}.

(** The 2x2 block [[1, 2], [3, 4]]. *)
Definition block22 : ndarray Z := {|
  nd_shape := [2; 2];
  nd_at := λ i, match i with [r; c] => 2 * r + c + 1 | _ => 0 end
|}.

(** [vec20.submatrix((2, 5))]: blocks 2, 3 and 4 of [vec20]. *)
Definition view_2_5 : BigMatrixView.t Z := {|
  BigMatrixView.parent := vec20;
  BigMatrixView.transposed := false;
  BigMatrixView.shard_sizes := [2];
  BigMatrixView.parent_slices := [BigMatrixView.Slice 2 5 1];
  BigMatrixView.shape := [6];
  BigMatrixView.axis_lens := [10]
|}.

Definition empty_bucket : S3.bucket Z :=
  {| S3.objects := ∅; S3.faults := []; S3.calls := [] |}.

(** A bucket holding one block of [vec20], whose next read fails once. *)
Definition flaky_bucket : S3.bucket Z :=
  {| S3.objects := {[ "numpywren.objects/v/4_6_2_" := {| nd_shape := [2]; nd_at := λ _, 7 |} ]};
     S3.faults := [true];
     S3.calls := [] |}.

(** A program state for the executor: the answers [post_op] still has
    to give, and the marks the instructions have left. *)
Definition script : Type := list (option Z) * list Z.

Definition mark (m : Z) : LambdaPackExecutor.instr script :=
  λ σ, (Ok tt, (fst σ, snd σ ++ [m])).

Definition boom : LambdaPackExecutor.instr script :=
  raise (Exception "boom").

Definition scripted_post_op (pc : Z) (outcome : LambdaPackExecutor.EC)
    (tb : option string) : ST script (option Z) :=
  λ σ, match fst σ with
       | next :: rest => (Ok next, (rest, snd σ))
       | [] => (Ok None, σ)
       end.

(** Blocks 1 and 5 of two instructions each. *)
Definition chain_program : LambdaPackExecutor.Program script := {|
  LambdaPackExecutor.queue_urls := ["low"; "high"];
  LambdaPackExecutor.inst_blocks := λ pc,
    if pc =? 1 then Some [mark 10; mark 11]
    else if pc =? 5 then Some [mark 50; mark 51]
    else None;
  LambdaPackExecutor.pre_op := λ _, ret tt;
  LambdaPackExecutor.post_op := scripted_post_op;
  LambdaPackExecutor.program_status := λ _, LambdaPackExecutor.RUNNING
|}.

(** Block 1 whose second instruction raises. *)
Definition failing_program : LambdaPackExecutor.Program script := {|
  LambdaPackExecutor.queue_urls := ["low"; "high"];
  LambdaPackExecutor.inst_blocks := λ pc,
    if pc =? 1 then Some [mark 10; boom; mark 12] else None;
  LambdaPackExecutor.pre_op := λ _, ret tt;
  LambdaPackExecutor.post_op := scripted_post_op;
  LambdaPackExecutor.program_status := λ _, LambdaPackExecutor.RUNNING
|}.

(** Deterministic mock queues: a queue hands out its oldest messages, at
    most as many as asked for, and no longer shows them. *)
Definition mock_receive (url : string) (n : Z)
  : ST (gmap string (list WorkerLoop.message)) WorkerLoop.response :=
  λ q, match q !! url with
       | Some (m :: ms) =>
           (Ok {| WorkerLoop.Messages := Some (take (Z.to_nat n) (m :: ms)) |},
            <[url := drop (Z.to_nat n) (m :: ms)]> q)
       | _ => (Ok {| WorkerLoop.Messages := None |}, q)
       end.

Definition msg (handle body : string) : WorkerLoop.message :=
  {| WorkerLoop.ReceiptHandle := handle; WorkerLoop.Body := body |}.

Definition two_queues : gmap string (list WorkerLoop.message) :=
  {[ "low" := [msg "l1" "3"; msg "l2" "4"]; "high" := [msg "h1" "7"; msg "h2" "8"] ]}.

End Examples.

(** ** Further example data *)

Module MoreExamples.

(** A 5x4 array in 2x2 shards: the last block of the first axis has one
    row. *)
Definition mat54 : BigMatrix.t Z := {|
  BigMatrix.key_base := "numpywren.objects/r";
  BigMatrix.shape := [5; 4];
  BigMatrix.shard_sizes := [2; 2];
  BigMatrix.parent_fn := None;
  BigMatrix.symmetric := false;
  BigMatrix.lambdav := 0
|}.


(** An axis of 3 elements in shards of 5. *)
Definition short_axis : BigMatrix.t Z := {|
  BigMatrix.key_base := "numpywren.objects/t";
  BigMatrix.shape := [3];
  BigMatrix.shard_sizes := [5];
  BigMatrix.parent_fn := None;
  BigMatrix.symmetric := false;
  BigMatrix.lambdav := 0
|}.

(** [vec20] with a producer that fills a block with ones. *)
Definition ones : ndarray Z := {| nd_shape := [2]; nd_at := λ _, 1 |}.


(** The 2x2 block of nines, and a bucket in which block [(0, 1)] of
    [mat44] is stored. *)
Definition nines22 : ndarray Z := {| nd_shape := [2; 2]; nd_at := λ _, 9 |}.

Definition stored_bucket : S3.bucket Z :=
  {| S3.objects := {[ "numpywren.objects/m/0_2_2_2_4_2_" := Examples.block22 ]};
     S3.faults := [];
     S3.calls := [] |}.

(** A program whose [post_op] fails on [SUCCESS]. *)
Definition raising_post_program : LambdaPackExecutor.Program Examples.script := {|
  LambdaPackExecutor.queue_urls := ["low"; "high"];
  LambdaPackExecutor.inst_blocks := λ pc,
    if pc =? 1 then Some [Examples.mark 10] else None;
  LambdaPackExecutor.pre_op := λ _, ret tt;
  LambdaPackExecutor.post_op := λ pc outcome tb,
    match outcome with
    | LambdaPackExecutor.SUCCESS => raise (Exception "state store")
    | _ => ret None
    end;
  LambdaPackExecutor.program_status := λ _, LambdaPackExecutor.RUNNING
|}.

(** A program whose [post_op] always names counter 1 again. *)
Definition looping_program : LambdaPackExecutor.Program Examples.script := {|
  LambdaPackExecutor.queue_urls := ["low"; "high"];
  LambdaPackExecutor.inst_blocks := λ pc,
    if pc =? 1 then Some [Examples.mark 10] else None;
  LambdaPackExecutor.pre_op := λ _, ret tt;
  LambdaPackExecutor.post_op := λ pc outcome tb, ret (Some 1);
  LambdaPackExecutor.program_status := λ _, LambdaPackExecutor.RUNNING
|}.

(** Queues whose messages name counter 1, the mock's delete, and [int] on
    the bodies the examples use. *)
Definition work_queues : gmap string (list WorkerLoop.message) :=
  {[ "low" := [Examples.msg "l1" "5"]; "high" := [Examples.msg "h1" "1"] ]}.

Definition mock_delete (url receipt_handle : string)
  : ST (gmap string (list WorkerLoop.message)) unit :=
  ret tt.

Definition mock_int (body : string) : result Z :=
  if String.eqb body "1" then Ok 1
  else if String.eqb body "5" then Ok 5
  else Raise ValueError.

Definition worker_state (q : gmap string (list WorkerLoop.message)) (σ : Examples.script)
  : WorkerCycle.state (gmap string (list WorkerLoop.message)) Examples.script :=
  {| WorkerCycle.sqs := (q, []); WorkerCycle.deleted := []; WorkerCycle.exec := (σ, []) |}.

End MoreExamples.

(** * Properties *)

(** ** Python lists *)

Lemma index_lookup {A} (l : list A) (i : nat) (x : A) :
  l !! i = Some x → index l (Z.of_nat i) = Ok x.
Proof.
  intros Hl. unfold index.
  assert ((Z.of_nat i <? 0) = false) as E by (apply Z.ltb_ge; lia).
  rewrite E. cbv zeta. rewrite E, Nat2Z.id, Hl. reflexivity.
Qed.

Lemma index_last {A} (l : list A) (x : A) :
  index (l ++ [x]) (-1) = Ok x.
Proof.
  unfold index. change (-1 <? 0) with true. cbv iota zeta.
  rewrite length_app, Nat.add_1_r.
  assert ((-1 + Z.of_nat (S (length l)) <? 0) = false) as E by (apply Z.ltb_ge; lia).
  rewrite E.
  replace (Z.to_nat (-1 + Z.of_nat (S (length l)))) with (length l) by lia.
  rewrite lookup_app_r by lia. rewrite Nat.sub_diag. reflexivity.
Qed.

Lemma rmapM_Ok {A B} (f : A → result B) (g : A → B) (l : list A) :
  (∀ x, x ∈ l → f x = Ok (g x)) → rmapM f l = Ok (g <$> l).
Proof.
  induction l as [|x l IH]; intros Hf; [reflexivity|].
  simpl. rewrite Hf by left. simpl.
  rewrite IH by (intros y Hy; apply Hf; right; exact Hy). reflexivity.
Qed.

(** ** BlockAddressing *)

Section Addressing.
Context `{Dtype R}.
Implicit Types (self : BigMatrix.t R) (block_idx : list Z).

Lemma real_idx_axis_Ok self block_idx i :
  length block_idx = length (BigMatrix.shape self) →
  length (BigMatrix.shard_sizes self) = length (BigMatrix.shape self) →
  (i < length (BigMatrix.shape self))%nat →
  BigMatrix.real_idx_axis self block_idx i = Ok (BigMatrix.axis_range self block_idx i).
Proof.
  intros Hb Hs Hi. unfold BigMatrix.real_idx_axis, BigMatrix.axis_range.
  destruct (lookup_lt_is_Some_2 block_idx i) as [b Eb]; [lia|].
  destruct (lookup_lt_is_Some_2 (BigMatrix.shard_sizes self) i) as [ss Es]; [lia|].
  destruct (lookup_lt_is_Some_2 (BigMatrix.shape self) i) as [sh Eh]; [lia|].
  rewrite (index_lookup _ _ _ Eb), (index_lookup _ _ _ Es), (index_lookup _ _ _ Eh).
  rewrite Eb, Es, Eh. reflexivity.
Qed.

(** C4, as the code has it: with matching arity the mapping always
    returns, axis by axis, [start = block_idx[i] * shard_sizes[i]] and
    [end = min(start + shard_sizes[i], shape[i])]; it raises nothing, an
    empty range included. *)
Theorem block_idx_to_real_idx_total self block_idx :
  length block_idx = length (BigMatrix.shape self) →
  length (BigMatrix.shard_sizes self) = length (BigMatrix.shape self) →
  ∃ real_idxs,
    BigMatrix.__block_idx_to_real_idx__ self block_idx = Ok real_idxs
    ∧ length real_idxs = length (BigMatrix.shape self)
    ∧ ∀ i b ss sh,
        block_idx !! i = Some b →
        BigMatrix.shard_sizes self !! i = Some ss →
        BigMatrix.shape self !! i = Some sh →
        real_idxs !! i = Some (b * ss, Z.min (b * ss + ss) sh).
Proof.
  intros Hb Hs.
  exists (BigMatrix.axis_range self block_idx <$> seq 0 (length (BigMatrix.shape self))).
  split; [|split].
  - unfold BigMatrix.__block_idx_to_real_idx__. apply rmapM_Ok.
    intros i Hi. apply elem_of_seq in Hi.
    apply real_idx_axis_Ok; [done|done|lia].
  - rewrite length_fmap, length_seq. reflexivity.
  - intros i b ss sh Eb Es Eh.
    assert (i < length (BigMatrix.shape self))%nat as Hi
      by (apply lookup_lt_is_Some; eauto).
    rewrite list_lookup_fmap, lookup_seq_lt by exact Hi. simpl.
    unfold BigMatrix.axis_range. rewrite Eb, Es, Eh. reflexivity.
Qed.

End Addressing.

Lemma block_idx_to_real_idx_total_witness :
  BigMatrix.__block_idx_to_real_idx__ Examples.mat44 [2; 0] = Ok [(4, 4); (0, 2)].
Proof.
  destruct (block_idx_to_real_idx_total Examples.mat44 [2; 0])
    as (real_idxs & -> & Hlen & Hax); [reflexivity|reflexivity|].
  pose proof (Hax 0%nat 2 2 4 eq_refl eq_refl eq_refl) as H0.
  pose proof (Hax 1%nat 0 2 4 eq_refl eq_refl eq_refl) as H1.
  destruct real_idxs as [|r0 [|r1 [|? ?]]]; simpl in Hlen; try discriminate.
  simpl in H0, H1. injection H0 as ->. injection H1 as ->. reflexivity.
Defined.

(** C4 as stated fails on block [(2, 0)] of a 4x4 array in 2x2 shards:
    the first range starts at 4, which is not below the shape 4, and the
    code returns the empty range where the claim has [IndexError]. *)
Lemma real_range_empty_no_IndexError :
  Claimed.block_to_real_range [4; 4] [2; 2] [2; 0] = Raise IndexError
  ∧ BigMatrix.__block_idx_to_real_idx__ Examples.mat44 [2; 0] = Ok [(4, 4); (0, 2)]
  ∧ BigMatrix.__block_idx_to_real_idx__ Examples.mat44 [2; 0]
    ≠ Claimed.block_to_real_range [4; 4] [2; 2] [2; 0].
Proof. split; [reflexivity|split; [reflexivity|discriminate]]. Qed.

(** ** SymmetricShardedArray *)

Lemma new_calls_app {R} (w w' : S3.bucket R) (l : list S3.call) :
  S3.calls w' = S3.calls w ++ l → S3.new_calls w w' = l.
Proof. intros E. unfold S3.new_calls. rewrite E. apply drop_app_length. Qed.

Section Symmetric.
Context `{Dtype R}.
Implicit Types (self : BigMatrix.t R) (w : S3.bucket R).

Lemma symmetrize_idx_pair (a b : Z) :
  BigSymmetricMatrix._symmetrize_idx [a; b] = Ok (if a >? b then [a; b] else [b; a]).
Proof. unfold BigSymmetricMatrix._symmetrize_idx. simpl. destruct (a >? b); reflexivity. Qed.

Lemma symmetrize_idx_mirror (a b : Z) :
  BigSymmetricMatrix._symmetrize_idx [a; b] = BigSymmetricMatrix._symmetrize_idx [b; a].
Proof.
  rewrite !symmetrize_idx_pair.
  destruct (Z.gtb_spec a b), (Z.gtb_spec b a); try reflexivity; try lia.
  assert (a = b) as -> by lia. reflexivity.
Qed.

(** The read loop asks the store at most once. *)
Lemma read_loop_calls fuel key w :
  S3.calls (snd (BigMatrix.read_loop fuel key None 0 w)) = S3.calls w
  ∨ S3.calls (snd (BigMatrix.read_loop fuel key None 0 w)) = S3.calls w ++ [S3.GetObject key].
Proof.
  destruct fuel as [|fuel]; [left; reflexivity|right].
  simpl. unfold bind, try_except, S3.get_object, ret, raise.
  destruct (S3.faults w) as [|[|] fs]; simpl;
    destruct (S3.objects w !! key); simpl; try reflexivity;
    destruct fuel; reflexivity.
Qed.

Lemma s3_key_to_byte_io_calls fuel self key w :
  S3.calls (snd (BigMatrix.__s3_key_to_byte_io__ fuel self key w)) = S3.calls w
  ∨ S3.calls (snd (BigMatrix.__s3_key_to_byte_io__ fuel self key w))
    = S3.calls w ++ [S3.GetObject key].
Proof.
  unfold BigMatrix.__s3_key_to_byte_io__, bind.
  pose proof (read_loop_calls fuel key w) as Hl.
  destruct (BigMatrix.read_loop fuel key None 0 w) as [[[b|]|e|] w']; simpl in *; exact Hl.
Qed.

Lemma sym_get_block_async_calls fuel self block_idx canon key w :
  BigSymmetricMatrix._symmetrize_idx block_idx = Ok canon →
  BigMatrix.__shard_idx_to_key__ self canon = Ok key →
  let w' := snd (BigSymmetricMatrix.get_block_async fuel self block_idx w) in
  S3.new_calls w w' = [S3.HeadObject key]
  ∨ S3.new_calls w w' = [S3.HeadObject key; S3.GetObject key].
Proof.
  intros Hc Hk.
  remember (BigSymmetricMatrix.get_block_async fuel self block_idx w) as out eqn:Eout.
  intros w'. subst w'.
  unfold BigSymmetricMatrix.get_block_async in Eout.
  unfold bind at 1 in Eout. unfold lift at 1 in Eout. rewrite Hc in Eout.
  unfold bind at 1 in Eout. unfold lift at 1 in Eout. rewrite Hk in Eout.
  unfold bind at 1 in Eout. unfold S3.key_exists_async at 1 in Eout.
  set (w1 := S3.log (S3.HeadObject key) w) in Eout.
  assert (S3.calls w1 = S3.calls w ++ [S3.HeadObject key]) as E1 by reflexivity.
  clearbody w1.
  unfold bind at 1 in Eout.
  destruct (bool_decide (is_Some (S3.objects w !! key))).
  - pose proof (s3_key_to_byte_io_calls fuel self key w1) as Hio.
    destruct (BigMatrix.__s3_key_to_byte_io__ fuel self key w1) as [[X|e|] w2];
      simpl in Hio;
      try destruct (length (remove_dups block_idx) =? 1)%nat;
      unfold lift, ret in Eout; subst out; simpl;
      (destruct Hio as [Hio|Hio]; [left|right]; apply new_calls_app;
       rewrite Hio, E1, <- ?app_assoc; reflexivity).
  - left. destruct (BigMatrix.parent_fn self) as [f|].
    + unfold lift at 1 in Eout. destruct (f canon) as [X|e|];
        try destruct (length (remove_dups block_idx) =? 1)%nat;
        unfold lift, ret in Eout; subst out; simpl;
        apply new_calls_app; exact E1.
    + subst out; simpl. apply new_calls_app; exact E1.
Qed.

Lemma symmetrize_idx_eq (block_idx : list Z) (first last : Z) :
  index block_idx 0 = Ok first → index block_idx (-1) = Ok last →
  BigSymmetricMatrix._symmetrize_idx block_idx
  = Ok (if first >? last then block_idx else rev block_idx).
Proof.
  intros Hf Hl. unfold BigSymmetricMatrix._symmetrize_idx.
  rewrite Hf, Hl. simpl. destruct (first >? last); reflexivity.
Qed.

(** C1, as the code has it: the index is returned unchanged when its
    first axis value is greater than its last and reversed otherwise; the
    two mirror indices of a 2-D block have the same canonical index, and
    [get_block] on either of them asks the store about the key of that
    index and about no other. *)
Theorem symmetrize_idx_canonical :
  (∀ block_idx first last,
     index block_idx 0 = Ok first → index block_idx (-1) = Ok last →
     BigSymmetricMatrix._symmetrize_idx block_idx
     = Ok (if first >? last then block_idx else rev block_idx))
  ∧ (∀ a b, BigSymmetricMatrix._symmetrize_idx [a; b]
            = BigSymmetricMatrix._symmetrize_idx [b; a])
  ∧ (∀ fuel self a b key w,
       BigMatrix.symmetric self = true →
       rbind (BigSymmetricMatrix._symmetrize_idx [a; b])
             (BigMatrix.__shard_idx_to_key__ self) = Ok key →
       ∀ block_idx, block_idx = [a; b] ∨ block_idx = [b; a] →
       let w' := snd (get_block fuel self block_idx w) in
       S3.new_calls w w' = [S3.HeadObject key]
       ∨ S3.new_calls w w' = [S3.HeadObject key; S3.GetObject key]).
Proof.
  split; [exact symmetrize_idx_eq|split; [exact symmetrize_idx_mirror|]].
  intros fuel self a b key w Hsym Hkey block_idx Hidx.
  unfold get_block. rewrite Hsym.
  destruct (BigSymmetricMatrix._symmetrize_idx [a; b]) as [canon| |] eqn:Hc;
    try discriminate.
  simpl in Hkey.
  apply sym_get_block_async_calls with (canon := canon); [|exact Hkey].
  destruct Hidx as [-> | ->]; [exact Hc|].
  rewrite <- symmetrize_idx_mirror. exact Hc.
Qed.

(** C10: on a symmetric array [put_block] with [no_overwrite=True] stops
    at the read of the unassigned local [key] with a name-resolution
    error; the bucket and the log of calls are as before, so neither the
    existence check nor the closeness assertion nor a write took place. *)
Theorem sym_put_block_no_overwrite_raises fuel self (block : ndarray R) block_idx w :
  BigSymmetricMatrix.put_block_async fuel self block block_idx true w
  = (Raise (UnboundLocalError "key"), w)
  ∧ is_NameError (UnboundLocalError "key") = true.
Proof. split; reflexivity. Qed.

(** An attempt that fails is not followed by another: the handler raises
    before it counts the try. *)
Lemma read_loop_first_fault fuel key w fs :
  S3.faults w = true :: fs →
  BigMatrix.read_loop (S fuel) key None 0 w
  = (Raise (ClientError "transient read failure"),
     {| S3.objects := S3.objects w; S3.faults := fs;
        S3.calls := S3.calls w ++ [S3.GetObject key] |}).
Proof.
  intros Hf. simpl. unfold bind, try_except, S3.get_object, raise.
  rewrite Hf. reflexivity.
Qed.

Lemma s3_read_raises_on_first_fault fuel self key w fs :
  S3.faults w = true :: fs →
  BigMatrix.__s3_key_to_byte_io__ (S fuel) self key w
  = (Raise (ClientError "transient read failure"),
     {| S3.objects := S3.objects w; S3.faults := fs;
        S3.calls := S3.calls w ++ [S3.GetObject key] |}).
Proof.
  intros Hf. unfold BigMatrix.__s3_key_to_byte_io__. unfold bind at 1.
  rewrite (read_loop_first_fault fuel key w fs Hf). reflexivity.
Qed.

(** C3, what the code does: when the block is stored and the first fetch
    of its bytes fails, [get_block] has checked the key, asked the store
    for the object once, and raises that failure, whatever the later
    fetches would have returned and whatever fuel the loop is given. *)
Theorem get_block_raises_on_first_fault fuel self block_idx key X w fs :
  BigMatrix.symmetric self = false →
  length block_idx = length (BigMatrix.shape self) →
  BigMatrix.__shard_idx_to_key__ self block_idx = Ok key →
  S3.objects w !! key = Some X →
  S3.faults w = true :: fs →
  get_block (S fuel) self block_idx w
  = (Raise (ClientError "transient read failure"),
     {| S3.objects := S3.objects w; S3.faults := fs;
        S3.calls := S3.calls w ++ [S3.HeadObject key; S3.GetObject key] |}).
Proof.
  intros Hsym Hlen Hkey Hobj Hf.
  unfold get_block. rewrite Hsym. unfold BigMatrix.get_block_async.
  rewrite Hlen, Nat.eqb_refl. cbn [negb].
  unfold bind at 1. unfold lift at 1. rewrite Hkey.
  unfold bind at 1. unfold S3.key_exists_async at 1.
  rewrite Hobj. rewrite bool_decide_eq_true_2 by (by eexists).
  rewrite (s3_read_raises_on_first_fault fuel self key _ fs) by exact Hf.
  cbn [S3.log S3.objects S3.calls S3.faults]. rewrite <- app_assoc. reflexivity.
Qed.

End Symmetric.

Lemma symmetrize_idx_canonical_witness :
  BigSymmetricMatrix._symmetrize_idx [0; 1] = Ok [1; 0]
  ∧ BigSymmetricMatrix._symmetrize_idx [1; 0] = Ok [1; 0]
  ∧ S3.new_calls Examples.empty_bucket
      (snd (get_block 1 Examples.sym44 [0; 1] Examples.empty_bucket))
    = [S3.HeadObject "numpywren.objects/s/2_4_2_0_2_2_"].
Proof.
  destruct (symmetrize_idx_canonical (R := Z)) as (Hcanon & Hmirror & Hcalls).
  split; [|split].
  - exact (Hcanon [0; 1] 0 1 eq_refl eq_refl).
  - exact (Hcanon [1; 0] 1 0 eq_refl eq_refl).
  - destruct (Hcalls 1%nat Examples.sym44 0 1 "numpywren.objects/s/2_4_2_0_2_2_"
                Examples.empty_bucket eq_refl eq_refl [0; 1] (or_introl eq_refl))
      as [E|E]; [exact E|discriminate E].
Defined.

(** C1 as stated fails on the index [(0, 1)]: its first axis value is not
    greater than its last, and the code returns the reversed tuple. *)
Lemma symmetrize_idx_reverses_upper :
  Claimed.canonicalize [0; 1] = Ok [0; 1]
  ∧ BigSymmetricMatrix._symmetrize_idx [0; 1] = Ok [1; 0]
  ∧ BigSymmetricMatrix._symmetrize_idx [0; 1] ≠ Claimed.canonicalize [0; 1].
Proof. split; [reflexivity|split; [reflexivity|discriminate]]. Qed.

Lemma get_block_raises_on_first_fault_witness :
  get_block 6 Examples.vec20 [2] Examples.flaky_bucket
  = (Raise (ClientError "transient read failure"),
     {| S3.objects := S3.objects Examples.flaky_bucket; S3.faults := [];
        S3.calls := [S3.HeadObject "numpywren.objects/v/4_6_2_";
                     S3.GetObject "numpywren.objects/v/4_6_2_"] |}).
Proof.
  exact (get_block_raises_on_first_fault 5 Examples.vec20 [2] "numpywren.objects/v/4_6_2_"
           {| nd_shape := [2]; nd_at := λ _, 7 |} Examples.flaky_bucket []
           eq_refl eq_refl eq_refl eq_refl eq_refl).
Defined.

(** The same read, asked again, returns the block: one retry would have
    been enough. *)
Example second_read_succeeds :
  let w := snd (get_block 6 Examples.vec20 [2] Examples.flaky_bucket) in
  fst (get_block 6 Examples.vec20 [2] Examples.flaky_bucket)
  = Raise (ClientError "transient read failure")
  ∧ S3.calls w = [S3.HeadObject "numpywren.objects/v/4_6_2_";
                  S3.GetObject "numpywren.objects/v/4_6_2_"]
  ∧ nd_shape <$> (match fst (get_block 6 Examples.vec20 [2] w) with
                  | Ok X => Some X | _ => None end) = Some [2].
Proof. vm_compute. split; [reflexivity|split; reflexivity]. Qed.

(** C2, what the code does on the mirror index [(0, 1)] of a 4x4
    symmetric array in 2x2 shards: the block is transposed and checked
    against the range of the canonical index [(1, 0)], and written under
    the key of the requested index [(0, 1)]; nothing is stored under the
    canonical key, and [get_block] of either mirror index finds no block. *)
Theorem sym_put_block_writes_requested_key :
  let put := BigSymmetricMatrix.put_block_async 1 Examples.sym44 Examples.block22
               [0; 1] false Examples.empty_bucket in
  let canonical_key := "numpywren.objects/s/2_4_2_0_2_2_" in
  let missing := Exception ("Key " +:+ canonical_key +:+
                   " does not exist, and no parent function prescripted") in
  fst put = Ok tt
  ∧ BigSymmetricMatrix._symmetrize_idx [0; 1] = Ok [1; 0]
  ∧ BigMatrix.__shard_idx_to_key__ Examples.sym44 [1; 0] = Ok canonical_key
  ∧ S3.calls (snd put) = [S3.PutObject "numpywren.objects/s/0_2_2_2_4_2_"]
  ∧ nd_shape <$> S3.objects (snd put) !! "numpywren.objects/s/0_2_2_2_4_2_" = Some [2; 2]
  ∧ S3.objects (snd put) !! canonical_key = None
  ∧ (∀ fuel, fst (get_block fuel Examples.sym44 [0; 1] (snd put)) = Raise missing)
  ∧ (∀ fuel, fst (get_block fuel Examples.sym44 [1; 0] (snd put)) = Raise missing).
Proof.
  cbv zeta. repeat split; try (vm_compute; reflexivity); intros fuel; vm_compute; reflexivity.
Qed.

(** The same on every symmetric array: a put that returns has made one
    call, the write under the key of the index it was given. *)
Lemma sym_put_block_async_key `{Dtype R} fuel (self : BigMatrix.t R) block block_idx
    (w w' : S3.bucket R) :
  BigSymmetricMatrix.put_block_async fuel self block block_idx false w = (Ok tt, w') →
  ∃ key, BigMatrix.__shard_idx_to_key__ self block_idx = Ok key
         ∧ S3.new_calls w w' = [S3.PutObject key].
Proof.
  unfold BigSymmetricMatrix.put_block_async.
  unfold bind at 1. unfold ret at 1.
  unfold bind at 1. unfold lift at 1.
  destruct (BigSymmetricMatrix._symmetrize_idx block_idx) as [canon|e|]; try discriminate.
  unfold bind at 1. unfold lift at 1.
  destruct (BigMatrix.__block_idx_to_real_idx__ self canon) as [real_idxs|e|];
    try discriminate.
  destruct (bool_decide _); [discriminate|].
  unfold bind at 1. unfold lift at 1.
  destruct (BigMatrix.__shard_idx_to_key__ self block_idx) as [key|e|]; try discriminate.
  unfold BigMatrix.__save_matrix_to_s3__, S3.put_object. intros [= <-].
  exists key. split; [reflexivity|]. apply new_calls_app. reflexivity.
Qed.

(** ** ShardedArrayView *)

(** The property [block_idxs] of a view returns on no view. *)
Lemma view_block_idxs_never_returns `{Dtype R} (v : BigMatrixView.t R) (l : list (list Z)) :
  BigMatrixView.block_idxs v ≠ Ok l.
Proof.
  unfold BigMatrixView.block_idxs.
  destruct (block_idxs (BigMatrixView.parent v)); discriminate.
Qed.

(** On a view that is not transposed, [get_block] is the parent's
    [get_block] at the translated index. *)
Lemma view_get_block_parent `{Dtype R} (v : BigMatrixView.t R) (view_idx parent_idx : list Z) :
  BigMatrixView.transposed v = false →
  BigMatrixView.__view_to_parent_block_idx__ v view_idx = Ok parent_idx →
  ∀ fuel w, BigMatrixView.get_block fuel v view_idx w
            = get_block fuel (BigMatrixView.parent v) parent_idx w.
Proof.
  intros Ht Hidx fuel w. unfold BigMatrixView.get_block.
  rewrite Hidx, Ht. unfold bind, lift, ret.
  destruct (get_block fuel (BigMatrixView.parent v) parent_idx w) as [[X|e|] w'];
    reflexivity.
Qed.

(** C9, on the claim's own view, [submatrix((2,5))] of a one-axis array
    of ten blocks: the property [block_idxs] raises [TypeError]; the
    method [_block_idxs()] gives the three indices; [get_block(0)] on the
    view is [get_block(2)] on the parent, and view index 3, translated to
    5, is an [IndexError]. *)
Theorem view_block_idxs_raises :
  submatrix Examples.vec20 [BSeq [2; 5]] = Ok Examples.view_2_5
  ∧ block_idxs Examples.vec20 = Ok ((λ i, [i]) <$> [0; 1; 2; 3; 4; 5; 6; 7; 8; 9])
  ∧ BigMatrixView.block_idxs Examples.view_2_5 = Raise TypeError
  ∧ BigMatrixView._block_idxs Examples.view_2_5 = Ok [[0]; [1]; [2]]
  ∧ BigMatrixView.__view_to_parent_block_idx__ Examples.view_2_5 [0] = Ok [2]
  ∧ (∀ fuel w, BigMatrixView.get_block fuel Examples.view_2_5 [0] w
               = get_block fuel Examples.vec20 [2] w)
  ∧ BigMatrixView.__view_to_parent_block_idx__ Examples.view_2_5 [3] = Raise IndexError.
Proof.
  repeat split; try (vm_compute; reflexivity).
  intros fuel w.
  exact (view_get_block_parent Examples.view_2_5 [0] [2] eq_refl eq_refl fuel w).
Qed.

(** ** InstructionExecutor *)

Section ExecutorFacts.
Import LambdaPackExecutor.
Context {Σ : Type}.
Implicit Types (program : Program Σ) (σ : Σ) (log evs : list event)
  (instrs : list (instr Σ)) (pc : Z) (pcs : list Z).

Lemma run_instrs_ok pc instrs : ∀ n σ σ' log,
  exec_all instrs σ = (Ok tt, σ') →
  run_instrs pc n instrs (σ, log) = (Ok tt, (σ', log ++ calls_of pc n (length instrs))).
Proof.
  induction instrs as [|i instrs IH]; intros n σ σ' log Hex; simpl in *.
  - injection Hex as <-. unfold ret, calls_of. simpl. rewrite app_nil_r. reflexivity.
  - unfold bind in Hex. destruct (i σ) as [[[]|e|] σ1] eqn:Hi; try discriminate.
    unfold bind at 1. unfold emit, modify. unfold bind at 1, call. rewrite Hi.
    rewrite (IH (S n) σ1 σ' _ Hex). unfold calls_of. simpl.
    rewrite <- app_assoc. reflexivity.
Qed.

Lemma run_instrs_raise pc done (bad : instr Σ) rest e : ∀ n σ σ2 σ3 log,
  exec_all done σ = (Ok tt, σ2) →
  bad σ2 = (Raise e, σ3) →
  run_instrs pc n (done ++ bad :: rest) (σ, log)
  = (Raise e, (σ3, log ++ calls_of pc n (S (length done)))).
Proof.
  induction done as [|i done IH]; intros n σ σ2 σ3 log Hex Hbad; simpl in *.
  - injection Hex as <-. unfold bind at 1. unfold emit, modify.
    unfold bind at 1, call. rewrite Hbad. reflexivity.
  - unfold bind in Hex. destruct (i σ) as [[[]|e'|] σ1] eqn:Hi; try discriminate.
    unfold bind at 1. unfold emit, modify. unfold bind at 1, call. rewrite Hi.
    rewrite (IH (S n) σ1 σ2 σ3 _ Hex Hbad). unfold calls_of. simpl.
    rewrite <- app_assoc. reflexivity.
Qed.

Lemma run_pc_ok program pcs pc σ next σ' n log :
  block_ok program pc σ next σ' n →
  run_pc program pcs pc (σ, log)
  = (Ok (pcs ++ option_list next), (σ', log ++ block_events pc n)).
Proof.
  intros (instrs & σ1 & σ2 & Hblk & -> & Hpre & Hex & Hpost).
  unfold run_pc. unfold bind at 1. unfold emit, modify.
  unfold bind at 1. unfold call at 1. rewrite Hpre.
  unfold bind at 1. rewrite Hblk. unfold ret at 1.
  unfold try_except. unfold bind at 1.
  rewrite (run_instrs_ok pc instrs 0 σ1 σ2 _ Hex).
  unfold bind at 1. unfold emit, modify.
  unfold bind at 1. unfold call. rewrite Hpost.
  unfold block_events. simpl.
  destruct next as [next|]; unfold ret; simpl;
    rewrite <- ?app_assoc; simpl; rewrite ?app_nil_r, <- ?app_assoc; reflexivity.
Qed.

Lemma run_pc_raise program pcs pc σ e σ3 k r σ4 log :
  block_raises program pc σ e σ3 k →
  post_op program pc EXCEPTION (Some (format_exc e)) σ3 = (r, σ4) →
  run_pc program pcs pc (σ, log)
  = (match r with Ok _ => Raise e | Raise e' => Raise e' | Timeout => Timeout end,
     (σ4, log ++ failure_events pc k e)).
Proof.
  intros (done & bad & rest & σ1 & σ2 & Hblk & -> & Hpre & Hex & Hbad) Hpost.
  unfold run_pc. unfold bind at 1. unfold emit, modify.
  unfold bind at 1. unfold call at 1. rewrite Hpre.
  unfold bind at 1. rewrite Hblk. unfold ret at 1.
  unfold try_except. unfold bind at 1.
  rewrite (run_instrs_raise pc done bad rest e 0 σ1 σ2 σ3 _ Hex Hbad).
  unfold bind at 1. unfold emit, modify.
  unfold bind at 1. unfold call. rewrite Hpost.
  unfold failure_events. simpl.
  destruct r as [nx|e'|]; unfold raise; simpl; rewrite <- ?app_assoc; reflexivity.
Qed.

Lemma run_from_chain program pc σ visited evs σ' :
  chain program pc σ visited evs σ' →
  ∀ fuel pre log, (length visited ≤ fuel)%nat →
    run_from fuel program (pre ++ [pc]) (length pre) (σ, log)
    = (Ok tt, (σ', log ++ evs)).
Proof.
  induction 1 as [pc σ σ' n Hblk | pc σ σ1 next n visited evs σ' Hblk Hch IH];
    intros fuel pre log Hfuel; simpl in Hfuel;
    (destruct fuel as [|fuel]; [lia|]); simpl.
  - rewrite list_lookup_middle by reflexivity.
    unfold bind at 1. rewrite (run_pc_ok _ _ _ _ _ _ _ _ Hblk). simpl.
    rewrite app_nil_r.
    destruct fuel; simpl;
      (rewrite (lookup_ge_None_2 (pre ++ [pc]) (S (length pre)))
         by (rewrite length_app; simpl; lia)); reflexivity.
  - rewrite list_lookup_middle by reflexivity.
    unfold bind at 1. rewrite (run_pc_ok _ _ _ _ _ _ _ _ Hblk). simpl.
    replace (S (length pre)) with (length (pre ++ [pc]))
      by (rewrite length_app; simpl; lia).
    rewrite IH by lia. rewrite <- app_assoc. reflexivity.
Qed.

(** C6: when the blocks of the chain of counters that starts at [pc] run
    to their end and [post_op] names the next counter each time and then
    none, one [run pc] with fuel for those counters returns, having, for
    each counter in turn, called [pre_op], every instruction of its block
    in order, and [post_op] with [SUCCESS]. *)
Theorem run_executes_chain program pc σ visited evs σ' :
  chain program pc σ visited evs σ' →
  ∀ fuel log, (length visited ≤ fuel)%nat →
    run fuel program pc (σ, log) = (Ok tt, (σ', log ++ evs)).
Proof.
  intros Hch fuel log Hfuel.
  exact (run_from_chain program pc σ visited evs σ' Hch fuel [] log Hfuel).
Qed.

Lemma run_from_reaches program pc σ visited evs pc' σ1 :
  reaches program pc σ visited evs pc' σ1 →
  ∀ e σ3 k r σ4, block_raises program pc' σ1 e σ3 k →
    post_op program pc' EXCEPTION (Some (format_exc e)) σ3 = (r, σ4) →
    ∀ fuel pre log, (length visited < fuel)%nat →
      run_from fuel program (pre ++ [pc]) (length pre) (σ, log)
      = (match r with Ok _ => Raise e | Raise e' => Raise e' | Timeout => Timeout end,
         (σ4, log ++ evs ++ failure_events pc' k e)).
Proof.
  induction 1 as [pc σ | pc σ σ1 next n visited evs pc' σ' Hblk Hre IH];
    intros e σ3 k r σ4 Hfail Hpost fuel pre log Hfuel; simpl in Hfuel;
    (destruct fuel as [|fuel]; [lia|]); simpl.
  - rewrite list_lookup_middle by reflexivity.
    unfold bind at 1. rewrite (run_pc_raise _ _ _ _ _ _ _ _ _ _ Hfail Hpost).
    destruct r; reflexivity.
  - rewrite list_lookup_middle by reflexivity.
    unfold bind at 1. rewrite (run_pc_ok _ _ _ _ _ _ _ _ Hblk). simpl.
    replace (S (length pre)) with (length (pre ++ [pc]))
      by (rewrite length_app; simpl; lia).
    rewrite (IH e σ3 k r σ4 Hfail Hpost) by lia.
    unfold block_events. simpl. rewrite <- !app_assoc. simpl.
    rewrite <- ?app_assoc. reflexivity.
Qed.

Lemma format_exc_nonempty (e : exn) : format_exc e ≠ "".
Proof. unfold format_exc. discriminate. Qed.

(** C7: when instruction [k] of the block of a counter [pc'] raises [e]
    (the counters before it in the chain having succeeded), [run] calls
    [post_op pc' EXCEPTION] with the traceback text, which is not empty,
    makes no [post_op pc' SUCCESS] call for that block, and does not
    return: it raises [e] again once [post_op] has returned (and passes
    on what [post_op] raised if that call raised itself). *)
Theorem run_reports_and_reraises program pc σ visited evs pc' σ1 e σ3 k r σ4 :
  reaches program pc σ visited evs pc' σ1 →
  block_raises program pc' σ1 e σ3 k →
  post_op program pc' EXCEPTION (Some (format_exc e)) σ3 = (r, σ4) →
  ∀ fuel log, (length visited < fuel)%nat →
    run fuel program pc (σ, log)
    = (match r with Ok _ => Raise e | Raise e' => Raise e' | Timeout => Timeout end,
       (σ4, log ++ evs ++ failure_events pc' k e))
    ∧ last (failure_events pc' k e) = Some (PostOp pc' EXCEPTION (Some (format_exc e)))
    ∧ format_exc e ≠ ""
    ∧ (∀ tb, PostOp pc' SUCCESS tb ∉ failure_events pc' k e)
    ∧ fst (run fuel program pc (σ, log)) ≠ Ok tt.
Proof.
  intros Hre Hfail Hpost fuel log Hfuel.
  pose proof (run_from_reaches program pc σ visited evs pc' σ1 Hre e σ3 k r σ4
                Hfail Hpost fuel [] log Hfuel) as Hrun.
  change (run_from fuel program ([] ++ [pc]) (length (@nil Z)) (σ, log))
    with (run fuel program pc (σ, log)) in Hrun.
  split; [exact Hrun|]. split; [|split; [|split]].
  - unfold failure_events. rewrite app_comm_cons, last_snoc. reflexivity.
  - apply format_exc_nonempty.
  - intros tb Hin. unfold failure_events, calls_of in Hin.
    apply elem_of_cons in Hin as [Hin|Hin]; [discriminate|].
    apply elem_of_app in Hin as [Hin|Hin].
    + apply list_elem_of_fmap in Hin as (j & Hj & _). discriminate.
    + apply list_elem_of_singleton in Hin. discriminate.
  - rewrite Hrun. simpl. destruct r; discriminate.
Qed.

End ExecutorFacts.

Lemma run_executes_chain_witness :
  LambdaPackExecutor.run 2 Examples.chain_program 1 (([Some 5; None], []), [])
  = (Ok tt,
     (([], [10; 11; 50; 51]),
      [LambdaPackExecutor.PreOp 1;
       LambdaPackExecutor.Call 1 0; LambdaPackExecutor.Call 1 1;
       LambdaPackExecutor.PostOp 1 LambdaPackExecutor.SUCCESS None;
       LambdaPackExecutor.PreOp 5;
       LambdaPackExecutor.Call 5 0; LambdaPackExecutor.Call 5 1;
       LambdaPackExecutor.PostOp 5 LambdaPackExecutor.SUCCESS None])).
Proof.
  refine (run_executes_chain Examples.chain_program 1 ([Some 5; None], []) [1; 5]
            (LambdaPackExecutor.block_events 1 2 ++ LambdaPackExecutor.block_events 5 2)
            ([], [10; 11; 50; 51]) _ 2%nat [] _).
  - apply LambdaPackExecutor.chain_next with (σ1 := ([None], [10; 11])) (next := 5).
    + exists [Examples.mark 10; Examples.mark 11], ([Some 5; None], []), ([Some 5; None], [10; 11]).
      repeat split; reflexivity.
    + apply LambdaPackExecutor.chain_last.
      exists [Examples.mark 50; Examples.mark 51], ([None], [10; 11]), ([None], [10; 11; 50; 51]).
      repeat split; reflexivity.
  - simpl. lia.
Defined.

Lemma run_reports_and_reraises_witness :
  LambdaPackExecutor.run 1 Examples.failing_program 1 (([], []), [])
  = (Raise (Exception "boom"),
     (([], [10]),
      [LambdaPackExecutor.PreOp 1;
       LambdaPackExecutor.Call 1 0; LambdaPackExecutor.Call 1 1;
       LambdaPackExecutor.PostOp 1 LambdaPackExecutor.EXCEPTION
         (Some (format_exc (Exception "boom")))])).
Proof.
  refine (proj1 (run_reports_and_reraises Examples.failing_program 1 ([], []) [] [] 1
                   ([], []) (Exception "boom") ([], [10]) 1%nat (Ok None) ([], [10])
                   _ _ _ 1%nat [] _)).
  - apply LambdaPackExecutor.reaches_here.
  - exists [Examples.mark 10], Examples.boom, [Examples.mark 12], ([], []), ([], [10]).
    repeat split; reflexivity.
  - reflexivity.
  - simpl. lia.
Defined.

(** ** WorkerLoop *)

Section WorkerFacts.
Import WorkerLoop.
Context {Q : Type} (receive_message : string → Z → ST Q response).
Implicit Types (q : Q) (log : list request) (urls : list string).

Lemma poll_queues_select urls q q1 :
  all_empty receive_message urls q q1 →
  ∀ url rest q2 r l loc log,
    receive_message url 1 q1 = (Ok r, q2) →
    Messages r = Some l →
    poll_queues receive_message (urls ++ url :: rest) loc (q, log)
    = (Ok {| queue_url := Some url; messages := Some r |},
       (q2, log ++ requests urls ++ [ReceiveMessage url 1])).
Proof.
  induction 1 as [q | u urls q q0 q1 r0 Hrecv Hnone Hrest IH];
    intros url rest q2 r l loc log Hr Hl; simpl.
  - unfold bind, sqs_receive. rewrite Hr, Hl. reflexivity.
  - unfold bind at 1. unfold sqs_receive at 1. rewrite Hrecv, Hnone.
    rewrite (IH url rest q2 r l _ _ Hr Hl).
    rewrite <- app_assoc. reflexivity.
Qed.

Lemma poll_queues_all_empty urls q q' :
  all_empty receive_message urls q q' →
  ∀ loc log, ∃ loc',
    poll_queues receive_message urls loc (q, log) = (Ok loc', (q', log ++ requests urls))
    ∧ (urls = [] → loc' = loc)
    ∧ (urls ≠ [] → ∃ r, messages loc' = Some r ∧ Messages r = None).
Proof.
  induction 1 as [q | u urls q q0 q1 r0 Hrecv Hnone Hrest IH]; intros loc log; simpl.
  - exists loc. unfold ret, requests. simpl. rewrite app_nil_r.
    split; [reflexivity|split; [reflexivity|intros Hne; contradiction]].
  - unfold bind at 1. unfold sqs_receive at 1. rewrite Hrecv, Hnone.
    destruct (IH {| queue_url := Some u; messages := Some r0 |} (log ++ [ReceiveMessage u 1]))
      as (loc' & Hpoll & Hnil & Hcons).
    exists loc'. rewrite Hpoll. unfold requests. simpl. rewrite <- app_assoc.
    split; [reflexivity|split; [discriminate|intros _]].
    destruct urls as [|u' urls'].
    + rewrite (Hnil eq_refl). exists r0. split; [reflexivity|exact Hnone].
    + apply Hcons. discriminate.
Qed.

(** When every queue answers without a message the cycle selects
    nothing: the loop goes round again. *)
Lemma select_message_none queue_urls q q' loc log :
  queue_urls ≠ [] →
  all_empty receive_message (rev queue_urls) q q' →
  ∃ loc', select_message receive_message queue_urls loc (q, log)
          = (Ok (loc', None), (q', log ++ requests (rev queue_urls))).
Proof.
  intros Hne Hall.
  destruct (poll_queues_all_empty _ _ _ Hall loc log) as (loc' & Hpoll & _ & Hcons).
  destruct Hcons as (r & Hm & Hr).
  { intros Hrev. apply Hne. apply (f_equal (@rev string)) in Hrev.
    rewrite rev_involutive in Hrev. exact Hrev. }
  exists loc'. unfold select_message. unfold bind at 1. rewrite Hpoll.
  unfold bind, read_local, ret. rewrite Hm. simpl. rewrite Hr. reflexivity.
Qed.

(** C5: in a poll cycle over [queue_urls = lower ++ url :: higher]
    (highest priority last), when the queues of higher priority than
    [url] answer without a message and [url] answers with one, the cycle
    has asked each of those queues once, for at most one message, from
    the highest priority down, has asked no queue of lower priority, and
    takes the message of [url]. *)
Theorem select_message_highest_priority lower url higher q q1 q2 r msg more loc log :
  all_empty receive_message (rev higher) q q1 →
  receive_message url 1 q1 = (Ok r, q2) →
  Messages r = Some (msg :: more) →
  select_message receive_message (lower ++ url :: higher) loc (q, log)
  = (Ok ({| queue_url := Some url; messages := Some r |}, Some (url, msg)),
     (q2, log ++ requests (rev higher) ++ [ReceiveMessage url 1])).
Proof.
  intros Hhigher Hr Hmsgs. unfold select_message.
  rewrite rev_app_distr. simpl. rewrite <- app_assoc. simpl.
  unfold bind at 1.
  rewrite (poll_queues_select _ _ _ Hhigher url (rev lower) q2 r (msg :: more) loc log Hr Hmsgs).
  simpl. unfold bind, read_local, ret. simpl. rewrite Hmsgs. reflexivity.
Qed.

End WorkerFacts.

Lemma select_message_highest_priority_witness :
  WorkerLoop.select_message Examples.mock_receive ["low"; "high"; "top"] WorkerLoop.unbound
    (Examples.two_queues, [])
  = (Ok ({| WorkerLoop.queue_url := Some "high";
            WorkerLoop.messages :=
              Some {| WorkerLoop.Messages := Some [Examples.msg "h1" "7"] |} |},
         Some ("high", Examples.msg "h1" "7")),
     (<["high" := [Examples.msg "h2" "8"]]> Examples.two_queues,
      [WorkerLoop.ReceiveMessage "top" 1; WorkerLoop.ReceiveMessage "high" 1])).
Proof.
  refine (select_message_highest_priority Examples.mock_receive ["low"] "high" ["top"]
            Examples.two_queues Examples.two_queues _ _ (Examples.msg "h1" "7") []
            WorkerLoop.unbound [] _ _ _).
  - apply WorkerLoop.all_empty_cons
      with (q1 := Examples.two_queues) (r := {| WorkerLoop.Messages := None |}).
    + reflexivity.
    + reflexivity.
    + apply WorkerLoop.all_empty_nil.
  - reflexivity.
  - reflexivity.
Defined.

(** ** BoundedRecentCache *)

Section LRUFacts.
Import LRUCache.
Context `{Countable K} {V : Type}.
Implicit Types (c : LRUCache.t K V) (key : K) (ko : list K).

Lemma filter_ne_notin key ko : key ∉ ko → filter (λ k, k ≠ key) ko = ko.
Proof.
  induction ko as [|k ko IH]; intros Hnin; [reflexivity|].
  apply not_elem_of_cons in Hnin as [Hne Hnin].
  rewrite filter_cons_True by congruence. rewrite IH by exact Hnin. reflexivity.
Qed.

Lemma remove_first_filter key ko :
  NoDup ko → key ∈ ko → remove_first key ko = Some (filter (λ k, k ≠ key) ko).
Proof.
  induction ko as [|k ko IH]; intros Hnd Hin; [by apply elem_of_nil in Hin|].
  apply NoDup_cons in Hnd as [Hk Hnd]. simpl.
  destruct (decide (key = k)) as [->|Hne].
  - rewrite filter_cons_False by (intros Hc; exact (Hc eq_refl)).
    rewrite filter_ne_notin by exact Hk. reflexivity.
  - apply elem_of_cons in Hin as [Hin|Hin]; [contradiction|].
    rewrite IH by assumption. simpl.
    rewrite filter_cons_True by congruence. reflexivity.
Qed.

Lemma remove_first_snoc ko key :
  NoDup (ko ++ [key]) → remove_first key (ko ++ [key]) = Some ko.
Proof.
  intros Hnd. rewrite remove_first_filter;
    [|exact Hnd|apply elem_of_app; right; left].
  apply NoDup_app in Hnd as (_ & Hdisj & _).
  rewrite filter_app. rewrite filter_ne_notin.
  - rewrite filter_cons_False by (intros Hc; exact (Hc eq_refl)).
    rewrite filter_nil, app_nil_r. reflexivity.
  - intros Hin. apply (Hdisj key Hin). left.
Qed.

Lemma index_snoc {A} (l : list A) (x : A) : index (l ++ [x]) (Z.of_nat (length l)) = Ok x.
Proof. apply index_lookup. rewrite lookup_app_r by lia. rewrite Nat.sub_diag. reflexivity. Qed.

Lemma mark_spec c key :
  NoDup (key_order c) →
  (∀ k, k ∈ key_order c → is_Some (cache c !! k)) →
  is_Some (cache c !! key) →
  Z.of_nat (length (key_order c)) ≤ max_items c →
  _mark key c = (Ok tt, marked key c).
Proof.
  intros Hnd Hdom Hkey Hlen.
  unfold _mark, marked, LRUCache.touched. unfold bind at 1. unfold get_state at 1.
  unfold bind at 1.
  assert ((if decide (key ∈ key_order c) then key_order_remove key else ret tt) c
          = (Ok tt, set_key_order (filter (λ k, k ≠ key) (key_order c)) c)) as ->.
  { destruct (decide (key ∈ key_order c)) as [Hin|Hnin].
    - unfold key_order_remove, bind, get_state.
      rewrite remove_first_filter by assumption. reflexivity.
    - rewrite filter_ne_notin by exact Hnin. destruct c; reflexivity. }
  unfold bind at 1. unfold modify at 1.
  unfold bind at 1. unfold get_state at 1. cbn [key_order set_key_order max_items cache].
  remember (key :: filter (λ k, k ≠ key) (key_order c)) as touched eqn:Et.
  destruct (Z.gtb_spec (Z.of_nat (length touched)) (max_items c)) as [Hgt|Hle];
    [|reflexivity].
  assert (NoDup touched) as Hndt.
  { subst touched. apply NoDup_cons. split; [|by apply NoDup_filter].
    intros Hin. apply list_elem_of_filter in Hin as [Hne _]. exact (Hne eq_refl). }
  assert (length touched = S (Z.to_nat (max_items c))) as Hlt.
  { pose proof (length_filter (λ k, k ≠ key) (key_order c)) as Hf.
    subst touched. simpl in *. lia. }
  destruct (exists_last (l := touched)) as (init & lru & Htouched); [by subst touched|].
  assert (is_Some (cache c !! lru)) as [v Hv].
  { assert (lru ∈ touched) as Hin by (rewrite Htouched; apply elem_of_app; right; left).
    rewrite Et in Hin. apply elem_of_cons in Hin as [->|Hin]; [exact Hkey|].
    apply list_elem_of_filter in Hin as [_ Hin]. by apply Hdom. }
  clear Et. subst touched.
  rewrite length_app in Hlt. simpl in Hlt.
  assert (index (init ++ [lru]) (max_items c) = Ok lru) as Hidx.
  { replace (max_items c) with (Z.of_nat (length init)) by lia. apply index_snoc. }
  unfold bind at 1. unfold lift at 1. rewrite Hidx.
  unfold bind at 1. unfold cache_del at 1. unfold bind at 1. unfold get_state at 1.
  cbn [key_order set_key_order max_items cache].
  rewrite Hv. unfold modify at 1.
  unfold key_order_remove, bind, get_state. cbn [key_order set_key_order set_cache max_items cache].
  rewrite remove_first_snoc by exact Hndt.
  rewrite List.last_last, removelast_last. reflexivity.
Qed.

Lemma length_filter_ne key ko :
  NoDup ko → key ∈ ko → S (length (filter (λ k, k ≠ key) ko)) = length ko.
Proof.
  induction ko as [|k ko IH]; intros Hnd Hin; [by apply elem_of_nil in Hin|].
  apply NoDup_cons in Hnd as [Hk Hnd].
  destruct (decide (k = key)) as [->|Hne].
  - rewrite filter_cons_False by (intros Hc; exact (Hc eq_refl)).
    rewrite filter_ne_notin by exact Hk. reflexivity.
  - apply elem_of_cons in Hin as [Hin|Hin]; [congruence|].
    rewrite filter_cons_True by exact Hne. simpl. rewrite IH by assumption. reflexivity.
Qed.

Lemma touched_NoDup key c : NoDup (key_order c) → NoDup (touched key c).
Proof.
  intros Hnd. apply NoDup_cons. split; [|by apply NoDup_filter].
  intros Hin. apply list_elem_of_filter in Hin as [Hne _]. exact (Hne eq_refl).
Qed.

Lemma elem_of_touched key c k : k ∈ touched key c ↔ k = key ∨ k ∈ key_order c.
Proof.
  unfold touched. rewrite elem_of_cons, list_elem_of_filter. split.
  - intros [->|[_ Hin]]; [by left|by right].
  - intros [->|Hin]; [by left|].
    destruct (decide (k = key)) as [->|Hne]; [by left|right; by split].
Qed.

Lemma length_touched key c :
  (length (touched key c) ≤ S (length (key_order c)))%nat.
Proof. unfold touched. simpl. pose proof (length_filter (λ k, k ≠ key) (key_order c)). lia. Qed.

Lemma inv_init (N : Z) : 0 ≤ N → inv (__init__ (K := K) (V := V) N).
Proof.
  intros HN. split; [constructor|split; [|simpl; lia]].
  intros k. simpl. rewrite lookup_empty. split; [by intros ?%elem_of_nil|by intros [? ?]].
Qed.

Lemma marked_inv key c :
  NoDup (key_order c) →
  (∀ k, is_Some (cache c !! k) ↔ k = key ∨ k ∈ key_order c) →
  Z.of_nat (length (key_order c)) ≤ max_items c →
  inv (marked key c) ∧ max_items (marked key c) = max_items c.
Proof.
  intros Hnd Hdom Hlen.
  pose proof (touched_NoDup key c Hnd) as Hndt.
  pose proof (length_touched key c) as Hlt.
  unfold marked.
  destruct (Z.gtb_spec (Z.of_nat (length (touched key c))) (max_items c)) as [Hgt|Hle].
  - destruct (exists_last (l := touched key c)) as (init & lru & Ht); [done|].
    rewrite Ht in *. rewrite List.last_last, removelast_last.
    rewrite length_app in Hlt, Hgt. simpl in Hlt, Hgt.
    apply NoDup_app in Hndt as (Hndi & Hdisj & _).
    split; [|reflexivity]. split; [exact Hndi|split]; cbn [key_order cache max_items].
    + intros k. destruct (decide (k = lru)) as [->|Hne].
      * rewrite lookup_delete_eq. split; [|by intros [? ?]].
        intros Hin. exfalso. apply (Hdisj lru Hin). left.
      * rewrite lookup_delete_ne by congruence. rewrite Hdom.
        rewrite <- elem_of_touched, Ht, elem_of_app, list_elem_of_singleton.
        split; [by left|intros [Hin|Heq]; [exact Hin|contradiction]].
    + lia.
  - split; [|reflexivity]. split; [exact Hndt|split]; cbn [key_order cache max_items set_key_order].
    + intros k. rewrite Hdom. apply elem_of_touched.
    + exact Hle.
Qed.

Lemma getitem_absent c key :
  cache c !! key = None → __getitem__ key c = (Raise KeyError, c).
Proof.
  intros Hk. unfold __getitem__, bind, get_state, try_except. rewrite Hk. reflexivity.
Qed.

Lemma getitem_present c key v :
  inv c → cache c !! key = Some v →
  __getitem__ key c = (Ok v, set_key_order (touched key c) c).
Proof.
  intros (Hnd & Hdom & Hlen) Hk.
  unfold __getitem__. unfold bind at 1. unfold get_state at 1.
  unfold bind at 1. unfold try_except. rewrite Hk. unfold ret at 1.
  unfold bind at 1. rewrite mark_spec; [|exact Hnd|intros k; apply Hdom|by eexists|exact Hlen].
  unfold ret. f_equal. unfold marked.
  assert (key ∈ key_order c) as Hin by (apply Hdom; by eexists).
  pose proof (length_filter_ne key (key_order c) Hnd Hin) as Hf.
  destruct (Z.gtb_spec (Z.of_nat (length (touched key c))) (max_items c)) as [Hgt|_];
    [|reflexivity].
  unfold touched in Hgt. simpl in Hgt. lia.
Qed.

Lemma setitem_marked c key value :
  inv c →
  __setitem__ key value c
  = (Ok tt, marked key (set_cache (<[key := value]> (cache c)) c)).
Proof.
  intros (Hnd & Hdom & Hlen).
  unfold __setitem__. unfold bind at 1. unfold modify at 1.
  apply mark_spec; cbn [key_order cache max_items set_cache].
  - exact Hnd.
  - intros k Hin. apply Hdom in Hin. destruct (decide (k = key)) as [->|Hne].
    + rewrite lookup_insert_eq. by eexists.
    + rewrite lookup_insert_ne by congruence. exact Hin.
  - rewrite lookup_insert_eq. by eexists.
  - exact Hlen.
Qed.

Lemma step_inv o c : inv c → inv (step o c) ∧ max_items (step o c) = max_items c.
Proof.
  intros Hinv. pose proof Hinv as (Hnd & Hdom & Hlen).
  destruct o as [key|key value]; unfold step.
  - destruct (cache c !! key) as [v|] eqn:Hk.
    + rewrite (getitem_present c key v Hinv Hk). cbn [snd].
      assert (key ∈ key_order c) as Hin by (apply Hdom; by eexists).
      assert (marked key c = set_key_order (touched key c) c) as <-.
      { unfold marked. pose proof (length_filter_ne key (key_order c) Hnd Hin) as Hf.
        destruct (Z.gtb_spec (Z.of_nat (length (touched key c))) (max_items c)) as [Hgt|_];
          [|reflexivity].
        unfold touched in Hgt. simpl in Hgt. lia. }
      apply marked_inv; [exact Hnd| |exact Hlen].
      intros k. rewrite <- Hdom. split; [by right|intros [->|Hs]; [by apply Hdom|exact Hs]].
    + rewrite (getitem_absent c key Hk). split; [exact Hinv|reflexivity].
  - rewrite (setitem_marked c key value Hinv). cbn [snd].
    destruct (marked_inv key (set_cache (<[key := value]> (cache c)) c)) as [Hi Hm];
      cbn [key_order cache max_items set_cache]; [exact Hnd| |exact Hlen|].
    + intros k. destruct (decide (k = key)) as [->|Hne].
      * rewrite lookup_insert_eq. split; [by left|by eexists].
      * rewrite lookup_insert_ne by congruence. rewrite <- Hdom.
        split; [by right|intros [Heq|Hs]; [contradiction|exact Hs]].
    + split; [exact Hi|exact Hm].
Qed.

Lemma reachable_inv N c : 0 ≤ N → reachable N c → inv c ∧ max_items c = N.
Proof.
  intros HN [ops ->]. unfold run_ops.
  induction ops as [|o ops IH] using rev_ind.
  - split; [by apply inv_init|reflexivity].
  - rewrite foldl_app. simpl. destruct IH as [Hinv Hmax].
    destruct (step_inv o _ Hinv) as [Hi Hm]. split; [exact Hi|congruence].
Qed.

Lemma inv_size c : inv c → size (cache c) = length (key_order c).
Proof.
  intros (Hnd & Hdom & _).
  rewrite <- size_dom. rewrite <- (size_list_to_set (C := gset K) (key_order c) Hnd).
  f_equal. apply set_eq. intros k.
  rewrite elem_of_dom, elem_of_list_to_set. symmetry. apply Hdom.
Qed.


(** C8: in a cache reached by gets and puts from [LRUCache(N)], the
    dictionary never holds more than [N] keys, and its keys are those of
    the recency order, each once.  A get of an absent key raises
    [KeyError] and changes nothing; a get of a present key returns its
    value and moves the key to the front of the order; a put of a present
    key replaces the value and moves the key to the front; a put of a new
    key puts it in front, and when the cache is full it drops the last key
    of the order, and that key only.  So with [N > 0] every put leaves its
    key in front with its value; with [N = 0] the key a put inserts is
    itself the one dropped. *)
Theorem lru_cache_bounded_recent (N : Z) c :
  0 ≤ N → reachable N c →
  Z.of_nat (size (cache c)) ≤ N
  ∧ (NoDup (key_order c) ∧ ∀ k, k ∈ key_order c ↔ is_Some (cache c !! k))
  ∧ (∀ key, cache c !! key = None → __getitem__ key c = (Raise KeyError, c))
  ∧ (∀ key v, cache c !! key = Some v →
       __getitem__ key c = (Ok v, set_key_order (touched key c) c))
  ∧ (∀ key value, is_Some (cache c !! key) →
       __setitem__ key value c
       = (Ok tt, {| cache := <[key := value]> (cache c);
                    key_order := touched key c; max_items := N |}))
  ∧ (∀ key value, cache c !! key = None → Z.of_nat (size (cache c)) < N →
       __setitem__ key value c
       = (Ok tt, {| cache := <[key := value]> (cache c);
                    key_order := key :: key_order c; max_items := N |}))
  ∧ (∀ key value ko lru, cache c !! key = None → key_order c = ko ++ [lru] →
       Z.of_nat (size (cache c)) = N →
       __setitem__ key value c
       = (Ok tt, {| cache := <[key := value]> (delete lru (cache c));
                    key_order := key :: ko; max_items := N |}))
  ∧ (∀ key value, N = 0 → __setitem__ key value c = (Ok tt, c))
  ∧ (∀ key value, 0 < N →
       fst (__setitem__ key value c) = Ok tt
       ∧ head (key_order (snd (__setitem__ key value c))) = Some key
       ∧ cache (snd (__setitem__ key value c)) !! key = Some value).
Proof.
  intros HN Hreach.
  destruct (reachable_inv N c HN Hreach) as [Hinv Hmax].
  pose proof Hinv as (Hnd & Hdom & Hlen).
  pose proof (inv_size c Hinv) as Hsize.
  split; [rewrite Hsize, <- Hmax; exact Hlen|].
  split; [split; [exact Hnd|exact Hdom]|].
  split; [intros key; apply getitem_absent|].
  split; [intros key v; apply getitem_present; exact Hinv|].
  assert (∀ key, cache c !! key = None → touched key c = key :: key_order c) as Hnew.
  { intros key Hk. unfold touched. rewrite filter_ne_notin; [reflexivity|].
    intros Hin. apply Hdom in Hin as [v Hv]. congruence. }
  assert (∀ key value, is_Some (cache c !! key) →
            __setitem__ key value c
            = (Ok tt, {| cache := <[key := value]> (cache c);
                         key_order := touched key c; max_items := N |})) as Hpresent;
    [|assert (∀ key value, cache c !! key = None → Z.of_nat (size (cache c)) < N →
                __setitem__ key value c
                = (Ok tt, {| cache := <[key := value]> (cache c);
                             key_order := key :: key_order c; max_items := N |})) as Hroom;
      [|assert (∀ key value ko lru, cache c !! key = None → key_order c = ko ++ [lru] →
                  Z.of_nat (size (cache c)) = N →
                  __setitem__ key value c
                  = (Ok tt, {| cache := <[key := value]> (delete lru (cache c));
                               key_order := key :: ko; max_items := N |})) as Hfull;
        [|split; [exact Hpresent|split; [exact Hroom|split; [exact Hfull|split]]]]]].
  - intros key value Hk. rewrite (setitem_marked c key value Hinv). f_equal.
    unfold marked. cbn [key_order cache max_items set_cache set_key_order].
    change (touched key (set_cache (<[key:=value]> (cache c)) c)) with (touched key c).
    assert (key ∈ key_order c) as Hin by (apply Hdom; exact Hk).
    pose proof (length_filter_ne key (key_order c) Hnd Hin) as Hf.
    destruct (Z.gtb_spec (Z.of_nat (length (touched key c))) (max_items c)) as [Hgt|_].
    + unfold touched in Hgt. simpl in Hgt. lia.
    + unfold set_key_order, set_cache. cbn [key_order cache max_items].
      rewrite Hmax. reflexivity.
  - intros key value Hk Hroom. rewrite (setitem_marked c key value Hinv). f_equal.
    unfold marked. cbn [key_order cache max_items set_cache set_key_order].
    change (touched key (set_cache (<[key:=value]> (cache c)) c)) with (touched key c).
    rewrite (Hnew key Hk).
    destruct (Z.gtb_spec (Z.of_nat (length (key :: key_order c))) (max_items c)) as [Hgt|_].
    + simpl in Hgt. lia.
    + unfold set_key_order, set_cache. cbn [key_order cache max_items].
      rewrite Hmax. reflexivity.
  - intros key value ko lru Hk Hko Hfull. rewrite (setitem_marked c key value Hinv). f_equal.
    unfold marked. cbn [key_order cache max_items set_cache set_key_order].
    change (touched key (set_cache (<[key:=value]> (cache c)) c)) with (touched key c).
    rewrite (Hnew key Hk), Hko.
    destruct (Z.gtb_spec (Z.of_nat (length (key :: ko ++ [lru]))) (max_items c)) as [_|Hle].
    + rewrite app_comm_cons, List.last_last, removelast_last.
      assert (key ≠ lru) as Hne.
      { intros ->. assert (lru ∈ key_order c) as Hin
          by (rewrite Hko; apply elem_of_app; right; left).
        apply Hdom in Hin as [v Hv]. congruence. }
      rewrite delete_insert_ne by congruence. rewrite Hmax. reflexivity.
    + rewrite Hko in Hsize. simpl in Hle. lia.
  - intros key value ->. rewrite (setitem_marked c key value Hinv). f_equal.
    assert (key_order c = []) as Hko.
    { destruct (key_order c); [reflexivity|]. simpl in Hlen. lia. }
    assert (cache c !! key = None) as Hk.
    { destruct (cache c !! key) as [v|] eqn:Hv; [|reflexivity].
      assert (key ∈ key_order c) as Hin by (apply Hdom; by eexists).
      rewrite Hko in Hin. by apply elem_of_nil in Hin. }
    unfold marked. cbn [key_order cache max_items set_cache set_key_order].
    change (touched key (set_cache (<[key:=value]> (cache c)) c)) with (touched key c).
    rewrite (Hnew key Hk), Hko, Hmax. simpl.
    rewrite delete_insert_eq, delete_id by exact Hk.
    destruct c; simpl in *; congruence.
  - intros key value HN0.
    destruct (cache c !! key) as [v|] eqn:Hk.
    + rewrite (Hpresent key value (ex_intro _ v Hk)). cbn [fst snd key_order cache].
      split; [reflexivity|split; [reflexivity|apply lookup_insert_eq]].
    + destruct (Z.lt_ge_cases (Z.of_nat (size (cache c))) N) as [Hlt|Hge].
      * rewrite (Hroom key value Hk Hlt). cbn [fst snd key_order cache].
        split; [reflexivity|split; [reflexivity|apply lookup_insert_eq]].
      * assert (Z.of_nat (size (cache c)) = N) as Heq by (rewrite Hsize, <- Hmax in *; lia).
        destruct (exists_last (l := key_order c)) as (ko & lru & Hko).
        { intros Hnil. rewrite Hsize, Hnil in Heq. simpl in Heq. lia. }
        rewrite (Hfull key value ko lru Hk Hko Heq). cbn [fst snd key_order cache].
        split; [reflexivity|split; [reflexivity|apply lookup_insert_eq]].
Qed.

End LRUFacts.

Lemma lru_cache_bounded_recent_witness :
  let c2 := LRUCache.run_ops [LRUCache.Put "A" 1; LRUCache.Put "B" 2] (LRUCache.__init__ 2) in
  LRUCache.key_order c2 = ["B"; "A"]
  ∧ LRUCache.__setitem__ "C" 3 c2
    = (Ok tt, {| LRUCache.cache := <["C" := 3]> (delete "A" (LRUCache.cache c2));
                 LRUCache.key_order := ["C"; "B"];
                 LRUCache.max_items := 2 |})
  ∧ LRUCache.__getitem__ "C" c2 = (Raise KeyError, c2).
Proof.
  intros c2.
  destruct (lru_cache_bounded_recent 2 c2 ltac:(lia)
              (ex_intro _ [LRUCache.Put "A" 1; LRUCache.Put "B" 2] eq_refl))
    as (_ & _ & Habsent & _ & _ & _ & Hfull & _ & _).
  split; [reflexivity|split].
  - exact (Hfull "C" 3 ["B"] "A" eq_refl eq_refl eq_refl).
  - exact (Habsent "C" eq_refl).
Defined.

(** The scenario of the specification, capacity 2: after inserting A, B
    and C the cache holds B and C and no longer A; after then reading B
    and inserting D it holds B and D and no longer C. *)
Example lru_capacity_two_scenario :
  let c3 := LRUCache.run_ops
              [LRUCache.Put "A" 1; LRUCache.Put "B" 2; LRUCache.Put "C" 3]
              (LRUCache.__init__ 2) in
  let c5 := LRUCache.run_ops [LRUCache.Get "B"; LRUCache.Put "D" 4] c3 in
  (LRUCache.__contains__ "A" c3 = false
   ∧ LRUCache.cache c3 !! "B" = Some 2 ∧ LRUCache.cache c3 !! "C" = Some 3
   ∧ LRUCache.key_order c3 = ["C"; "B"])
  ∧ fst (LRUCache.__getitem__ "B" c3) = Ok 2
  ∧ (LRUCache.__contains__ "C" c5 = false
     ∧ LRUCache.cache c5 !! "B" = Some 2 ∧ LRUCache.cache c5 !! "D" = Some 4
     ∧ LRUCache.key_order c5 = ["D"; "B"]).
Proof. vm_compute. repeat split. Qed.

(** * Further properties *)

(** ** Construction *)

Section Construction.
Context `{Dtype R}.
Implicit Types (hs : gmap string BigMatrix.header).

(** X1: what [BigMatrix.__init__] lets through.  An array it returns has
    as many shard sizes as axes, and its key base is [prefix] joined with
    [key]; a shape given without shard sizes is refused even when a
    header is stored for the key. *)
Theorem init_checks_arity key shape shard_sizes prefix parent_fn write_header
    symmetric (lambdav : R) hs :
  (∀ self hs', BigMatrix.__init__ key shape shard_sizes prefix parent_fn write_header
                 symmetric lambdav hs = (Ok self, hs') →
     length (BigMatrix.shape self) = length (BigMatrix.shard_sizes self)
     ∧ BigMatrix.key_base self = path_join prefix key)
  ∧ (is_Some shape → shard_sizes = None →
     BigMatrix.__init__ key shape shard_sizes prefix parent_fn write_header
       symmetric lambdav hs
     = (Raise (Exception "shard_sizes should be same length as shape."), hs)).
Proof.
  split.
  - intros self hs'. unfold BigMatrix.__init__.
    unfold bind at 1.
    destruct (is_None shape || is_None shard_sizes).
    + unfold BigMatrix.__read_header__ at 1.
      unfold bind at 1.
      destruct (hs !! _) as [h|], shape as [sh|]; unfold ret, raise; cbn [snd fst];
        try discriminate.
      * destruct shard_sizes as [ss|]; [|discriminate].
        destruct (Nat.eqb_spec (length sh) (length ss)) as [Heq|]; cbn [negb];
          [|discriminate].
        unfold bind. destruct write_header; unfold BigMatrix.__write_header__, modify, ret;
          intros [= <- _]; split; [exact Heq|reflexivity| exact Heq|reflexivity].
      * destruct (Nat.eqb_spec (length (BigMatrix.header_shape h))
                    (length (BigMatrix.header_shard_sizes h))) as [Heq|]; cbn [negb];
          [|discriminate].
        unfold bind. destruct write_header; unfold BigMatrix.__write_header__, modify, ret;
          intros [= <- _]; split; [exact Heq|reflexivity| exact Heq|reflexivity].
      * destruct shard_sizes as [ss|]; [|discriminate].
        destruct (Nat.eqb_spec (length sh) (length ss)) as [Heq|]; cbn [negb];
          [|discriminate].
        unfold bind. destruct write_header; unfold BigMatrix.__write_header__, modify, ret;
          intros [= <- _]; split; [exact Heq|reflexivity| exact Heq|reflexivity].
    + unfold ret at 1. unfold bind at 1.
      destruct shape as [sh|]; unfold ret, raise; cbn [snd fst]; [|discriminate].
      destruct shard_sizes as [ss|]; [|discriminate].
      destruct (Nat.eqb_spec (length sh) (length ss)) as [Heq|]; cbn [negb];
        [|discriminate].
      unfold bind. destruct write_header; unfold BigMatrix.__write_header__, modify, ret;
        intros [= <- _]; split; [exact Heq|reflexivity| exact Heq|reflexivity].
  - intros [sh ->] ->. unfold BigMatrix.__init__.
    cbn [is_None orb]. unfold bind, BigMatrix.__read_header__, ret, raise.
    destruct (hs !! _); reflexivity.
Qed.

(** X2: the header round trip.  An array created with a shape, as many
    shard sizes and [write_header=True], and then opened again under the
    same prefix and key with no shape and no shard sizes, has the shape and
    the shard sizes it was created with. *)
Theorem header_round_trip key (shape shard_sizes : list Z) prefix parent_fn parent_fn'
    symmetric symmetric' (lambdav lambdav' : R) hs :
  length shape = length shard_sizes →
  ∃ self hs1 self',
    BigMatrix.__init__ key (Some shape) (Some shard_sizes) prefix parent_fn true
      symmetric lambdav hs = (Ok self, hs1)
    ∧ BigMatrix.__init__ key None None prefix parent_fn' false symmetric' lambdav' hs1
      = (Ok self', hs1)
    ∧ BigMatrix.shape self' = shape ∧ BigMatrix.shape self = shape
    ∧ BigMatrix.shard_sizes self' = shard_sizes ∧ BigMatrix.shard_sizes self = shard_sizes
    ∧ BigMatrix.key_base self' = BigMatrix.key_base self.
Proof.
  intros Hlen. eexists _, _, _. split; [|split].
  - unfold BigMatrix.__init__. cbn [is_None orb].
    unfold bind at 1. unfold ret at 1. unfold bind at 1. unfold ret at 1. cbn [snd fst].
    rewrite Hlen, Nat.eqb_refl. cbn [negb].
    unfold bind, BigMatrix.__write_header__, modify, ret. reflexivity.
  - unfold BigMatrix.__init__. cbn [is_None orb].
    unfold bind at 1. unfold BigMatrix.__read_header__ at 1.
    rewrite lookup_insert_eq.
    unfold bind at 1. unfold ret at 1. cbn [snd fst BigMatrix.header_shape
      BigMatrix.header_shard_sizes].
    rewrite Hlen, Nat.eqb_refl. cbn [negb].
    unfold bind, ret. reflexivity.
  - repeat split.
Qed.

End Construction.

Lemma init_checks_arity_witness :
  BigMatrix.__init__ (R := Z) "a" (Some [4; 4]) None "numpywren.objects/" None false false 0
    {[ "numpywren.objects/a/header" := BigMatrix.Header [4; 4] [2; 2] ]}
  = (Raise (Exception "shard_sizes should be same length as shape."),
     {[ "numpywren.objects/a/header" := BigMatrix.Header [4; 4] [2; 2] ]}).
Proof.
  exact (proj2 (init_checks_arity "a" (Some [4; 4]) None "numpywren.objects/" None false
                  false 0 _) (ex_intro _ [4; 4] eq_refl) eq_refl).
Defined.

Lemma header_round_trip_witness :
  ∃ self hs1 self',
    BigMatrix.__init__ (R := Z) "a" (Some [5; 4]) (Some [2; 2]) "numpywren.objects/" None
      true false 0 ∅ = (Ok self, hs1)
    ∧ BigMatrix.__init__ "a" None None "numpywren.objects/" None false false 0 hs1
      = (Ok self', hs1)
    ∧ BigMatrix.shape self' = [5; 4] ∧ BigMatrix.shape self = [5; 4]
    ∧ BigMatrix.shard_sizes self' = [2; 2] ∧ BigMatrix.shard_sizes self = [2; 2]
    ∧ BigMatrix.key_base self' = BigMatrix.key_base self.
Proof.
  exact (header_round_trip "a" [5; 4] [2; 2] "numpywren.objects/" None None false false
           0 0 ∅ eq_refl).
Defined.

(** ** Storage keys *)

Lemma underscore_not_digit : not_digit "_".
Proof. intros d. unfold pretty_N_char. repeat case_match; discriminate. Qed.

Lemma slash_not_digit : not_digit "/".
Proof. intros d. unfold pretty_N_char. repeat case_match; discriminate. Qed.

Lemma no_char_cons c d s :
  no_char c (String d s) = negb (Ascii.eqb d c) && no_char c s.
Proof. reflexivity. Qed.

Lemma no_char_single c d : d ≠ c → no_char c (String d "") = true.
Proof.
  intros Hne. rewrite no_char_cons. cbn [no_char]. rewrite andb_true_r.
  apply negb_true_iff, Ascii.eqb_neq, Hne.
Qed.

Lemma no_char_app c s1 s2 :
  no_char c (s1 +:+ s2) = no_char c s1 && no_char c s2.
Proof.
  induction s1 as [|d s1 IH]; [reflexivity|].
  change (String d s1 +:+ s2) with (String d (s1 +:+ s2)).
  rewrite !no_char_cons, IH, andb_assoc. reflexivity.
Qed.

Lemma pretty_N_go_no_char c : not_digit c →
  ∀ x s, no_char c s = true → no_char c (pretty_N_go x s) = true.
Proof.
  intros Hc x. induction (N.lt_wf_0 x) as [x _ IH]. intros s Hs.
  destruct (decide (0 < x)%N) as [Hx|Hx].
  - rewrite pretty_N_go_step by exact Hx.
    apply IH; [apply N.div_lt; [exact Hx|reflexivity]|].
    rewrite no_char_cons, Hs, andb_true_r.
    apply negb_true_iff, Ascii.eqb_neq, Hc.
  - assert (x = 0%N) as -> by lia. rewrite pretty_N_go_0. exact Hs.
Qed.

Lemma pretty_Z_no_char c (z : Z) :
  not_digit c → c ≠ "-"%char → no_char c (pretty z) = true.
Proof.
  intros Hc Hdash.
  assert (∀ n : N, no_char c (pretty n) = true) as HN.
  { intros n. unfold pretty, pretty_N. destruct (decide (n = 0%N)).
    - apply no_char_single. exact (Hc 0%N).
    - apply pretty_N_go_no_char; [exact Hc|reflexivity]. }
  destruct z as [|p|p].
  - apply no_char_single. exact (Hc 0%N).
  - exact (HN (N.pos p)).
  - change (pretty (Z.neg p)) with ("-" +:+ pretty (N.pos p)).
    rewrite no_char_app. rewrite (HN (N.pos p)), andb_true_r.
    apply no_char_single. congruence.
Qed.

(** Two fields that end at the first separator. *)
Lemma field_split c s1 s2 r1 r2 :
  no_char c s1 = true → no_char c s2 = true →
  s1 +:+ String c r1 = s2 +:+ String c r2 → s1 = s2 ∧ r1 = r2.
Proof.
  revert s2. induction s1 as [|d s1 IH]; intros [|d2 s2] H1 H2 Heq;
    cbn [String.append] in Heq.
  - injection Heq as <-. split; reflexivity.
  - injection Heq as <- _. rewrite no_char_cons, Ascii.eqb_refl in H2. discriminate.
  - injection Heq as -> _. rewrite no_char_cons, Ascii.eqb_refl in H1. discriminate.
  - injection Heq as <- Heq. rewrite no_char_cons in H1, H2.
    apply andb_true_iff in H1 as [_ H1]. apply andb_true_iff in H2 as [_ H2].
    destruct (IH s2 H1 H2 Heq) as [-> ->]. split; reflexivity.
Qed.

Lemma string_app_inv_l (a b1 b2 : string) : a +:+ b1 = a +:+ b2 → b1 = b2.
Proof.
  induction a as [|c a IH]; cbn [String.append]; [done|].
  intros [= Heq]. exact (IH Heq).
Qed.

Lemma key_string_no_slash real_idxs : ∀ shard_sizes,
  no_char "/" (BigMatrix.key_string real_idxs shard_sizes) = true.
Proof.
  induction real_idxs as [|[s e] real_idxs IH]; intros [|ss shard_sizes]; try reflexivity.
  cbn [BigMatrix.key_string]. rewrite !no_char_app.
  rewrite !pretty_Z_no_char by (exact slash_not_digit || discriminate).
  rewrite IH. reflexivity.
Qed.

Lemma key_string_inj real_idxs1 : ∀ real_idxs2 shard_sizes,
  length real_idxs1 = length shard_sizes →
  length real_idxs2 = length shard_sizes →
  BigMatrix.key_string real_idxs1 shard_sizes = BigMatrix.key_string real_idxs2 shard_sizes →
  real_idxs1 = real_idxs2.
Proof.
  induction real_idxs1 as [|[s1 e1] r1 IH]; intros [|[s2 e2] r2] [|ss shard_sizes] H1 H2 Heq;
    simpl in H1, H2; try discriminate; [reflexivity|].
  cbn [BigMatrix.key_string] in Heq.
  change "_" with (String "_"%char "") in Heq.
  change (String "_"%char "" +:+ ?x) with (String "_"%char x) in Heq.
  apply field_split in Heq as [Hs Heq];
    [|apply pretty_Z_no_char; [exact underscore_not_digit|discriminate]..].
  apply field_split in Heq as [He Heq];
    [|apply pretty_Z_no_char; [exact underscore_not_digit|discriminate]..].
  apply field_split in Heq as [_ Heq];
    [|apply pretty_Z_no_char; [exact underscore_not_digit|discriminate]..].
  apply (inj pretty) in Hs. apply (inj pretty) in He. subst.
  f_equal. apply (IH r2 shard_sizes); [lia|lia|exact Heq].
Qed.

Lemma starts_with_sep_no_slash (s : string) : no_char "/" s = true → starts_with_sep s = false.
Proof.
  destruct s as [|c s]; [reflexivity|]. rewrite no_char_cons. intros Hn.
  apply andb_true_iff in Hn as [Hc _]. apply negb_true_iff, Ascii.eqb_neq in Hc.
  unfold starts_with_sep.
  destruct c as [[] [] [] [] [] [] [] []]; try reflexivity. contradiction.
Qed.

Lemma path_join_inj (a b1 b2 : string) :
  no_char "/" b1 = true → no_char "/" b2 = true →
  path_join a b1 = path_join a b2 → b1 = b2.
Proof.
  intros H1 H2. unfold path_join.
  rewrite !starts_with_sep_no_slash by assumption.
  destruct (_ || _)%bool.
  - apply string_app_inv_l.
  - intros Heq. apply string_app_inv_l in Heq. apply (string_app_inv_l "/") in Heq.
    exact Heq.
Qed.

Section Keys.
Context `{Dtype R}.
Implicit Types (self : BigMatrix.t R).

Lemma rmapM_Ok_inv {A B} (f : A → result B) (l : list A) (ys : list B) :
  rmapM f l = Ok ys → Forall2 (λ x y, f x = Ok y) l ys.
Proof.
  revert ys. induction l as [|x l IH]; intros ys; simpl.
  - intros [= <-]. constructor.
  - destruct (f x) as [y|e|] eqn:Hx; simpl; try discriminate.
    destruct (rmapM f l) as [ys'|e|]; simpl; try discriminate.
    intros [= <-]. constructor; [exact Hx|]. apply IH. reflexivity.
Qed.

Lemma real_idx_length self block_idx real_idxs :
  BigMatrix.__block_idx_to_real_idx__ self block_idx = Ok real_idxs →
  length real_idxs = length (BigMatrix.shape self).
Proof.
  intros Hr. apply rmapM_Ok_inv, Forall2_length in Hr.
  rewrite length_seq in Hr. congruence.
Qed.

Lemma index_Ok_lookup {A} (l : list A) (i : nat) (x : A) :
  index l (Z.of_nat i) = Ok x → l !! i = Some x.
Proof.
  unfold index.
  assert ((Z.of_nat i <? 0) = false) as E by (apply Z.ltb_ge; lia).
  rewrite E. cbv zeta. rewrite E, Nat2Z.id.
  destruct (l !! i); [intros [= ->]; reflexivity|discriminate].
Qed.

(** X3: no two blocks share a key.  On an array whose shard sizes are not
    zero, two block indices of the array's arity that get the same storage
    key are the same index. *)
Theorem shard_idx_to_key_inj self (idx1 idx2 : list Z) key :
  Forall (λ ss, ss ≠ 0) (BigMatrix.shard_sizes self) →
  length (BigMatrix.shard_sizes self) = length (BigMatrix.shape self) →
  length idx1 = length (BigMatrix.shape self) →
  length idx2 = length (BigMatrix.shape self) →
  BigMatrix.__shard_idx_to_key__ self idx1 = Ok key →
  BigMatrix.__shard_idx_to_key__ self idx2 = Ok key →
  idx1 = idx2.
Proof.
  intros Hss Hlen H1 H2 Hk1 Hk2.
  unfold BigMatrix.__shard_idx_to_key__ in Hk1, Hk2.
  destruct (BigMatrix.__block_idx_to_real_idx__ self idx1) as [r1|e|] eqn:Hr1;
    simpl in Hk1; try discriminate.
  destruct (BigMatrix.__block_idx_to_real_idx__ self idx2) as [r2|e|] eqn:Hr2;
    simpl in Hk2; try discriminate.
  injection Hk1 as Hk1. injection Hk2 as Hk2. rewrite <- Hk2 in Hk1.
  unfold BigMatrix.__get_matrix_shard_key__ in Hk1.
  apply path_join_inj in Hk1; [|apply key_string_no_slash..].
  pose proof (real_idx_length _ _ _ Hr1) as L1.
  pose proof (real_idx_length _ _ _ Hr2) as L2.
  apply key_string_inj in Hk1; [|lia|lia]. subst r2.
  apply rmapM_Ok_inv in Hr1. apply rmapM_Ok_inv in Hr2.
  apply list_eq_same_length with (n := length (BigMatrix.shape self)); [exact H2|exact H1|].
  intros i b1 b2 Hi Hb1 Hb2.
  destruct (lookup_lt_is_Some_2 r1 i) as [r Hri]; [lia|].
  assert (seq 0 (length (BigMatrix.shape self)) !! i = Some i) as Hseq
    by (apply lookup_seq_lt; exact Hi).
  pose proof (Forall2_lookup_lr _ _ _ _ _ _ Hr1 Hseq Hri) as Ha1.
  pose proof (Forall2_lookup_lr _ _ _ _ _ _ Hr2 Hseq Hri) as Ha2.
  destruct (lookup_lt_is_Some_2 (BigMatrix.shard_sizes self) i) as [ss Hs]; [lia|].
  destruct (lookup_lt_is_Some_2 (BigMatrix.shape self) i) as [sh Hsh]; [lia|].
  unfold BigMatrix.real_idx_axis in Ha1, Ha2.
  rewrite (index_lookup _ _ _ Hb1), (index_lookup _ _ _ Hs), (index_lookup _ _ _ Hsh)
    in Ha1.
  rewrite (index_lookup _ _ _ Hb2), (index_lookup _ _ _ Hs), (index_lookup _ _ _ Hsh)
    in Ha2.
  simpl in Ha1, Ha2. rewrite <- Ha2 in Ha1. injection Ha1 as Hmul _.
  assert (ss ≠ 0) as Hnz by (eapply Forall_lookup_1 in Hss; [exact Hss|exact Hs]).
  apply Z.mul_cancel_r in Hmul; [exact Hmul|exact Hnz].
Qed.

End Keys.

Lemma shard_idx_to_key_inj_witness : [1; 0] = [1; 0] :> list Z.
Proof.
  refine (shard_idx_to_key_inj Examples.mat44 [1; 0] [1; 0]
            "numpywren.objects/m/2_4_2_0_2_2_" _ eq_refl eq_refl eq_refl eq_refl eq_refl).
  repeat constructor; discriminate.
Defined.

(** ** The blocks of an axis *)

Section Enumeration.
Context `{Dtype R}.
Implicit Types (self : BigMatrix.t R).

Lemma ceil_bounds (sh ss : Z) :
  0 < ss →
  ((sh + ss - 1) `div` ss - 1) * ss < sh ∧ sh ≤ ((sh + ss - 1) `div` ss) * ss.
Proof.
  intros Hss.
  pose proof (Z.div_mod (sh + ss - 1) ss ltac:(lia)) as Hdm.
  pose proof (Z.mod_pos_bound (sh + ss - 1) ss Hss) as Hmod.
  nia.
Qed.

Lemma blocks_axis_eq self (i : nat) (sh ss : Z) :
  BigMatrix.shape self !! i = Some sh →
  BigMatrix.shard_sizes self !! i = Some ss →
  0 < ss → ss ≤ sh →
  BigMatrix.blocks_axis self i
  = Ok (block_range sh ss <$> seq 0 (Z.to_nat ((sh + ss - 1) `div` ss))).
Proof.
  intros Hsh Hss Hpos Hle.
  pose proof (ceil_bounds sh ss Hpos) as [Hlo Hhi].
  set (N := (sh + ss - 1) `div` ss) in *.
  assert (1 ≤ N) as HN by (apply Z.div_le_lower_bound; lia).
  unfold BigMatrix.blocks_axis.
  rewrite (index_lookup _ _ _ Hsh), (index_lookup _ _ _ Hss). cbn [rbind].
  unfold range. rewrite (proj2 (Z.eqb_neq ss 0)) by lia. cbn [rbind].
  unfold range_len. rewrite (proj2 (Z.ltb_lt 0 ss)) by exact Hpos.
  replace (sh - 0 + ss - 1) with (sh + ss - 1) by lia. fold N.
  rewrite Z.max_r by lia.
  destruct (Z.to_nat N) as [|m] eqn:Hm; [lia|].
  assert (Z.of_nat m = N - 1) as HmN by lia.
  rewrite <- list_fmap_compose.
  rewrite seq_S, !fmap_snoc. cbn [Nat.add].
  rewrite index_last. cbn [rbind snd compose].
  destruct (Z.gtb_spec (0 + Z.of_nat m * ss + ss) sh) as [Hgt|Hngt].
  - rewrite removelast_last.
    destruct m as [|m']; [lia|].
    rewrite seq_S, !fmap_snoc. cbn [Nat.add].
    rewrite index_last. cbn [rbind snd compose].
    rewrite (proj2 (Z.ltb_lt _ _)) by lia.
    f_equal. f_equal; [f_equal|].
    + apply list_fmap_ext. intros j k Hk. apply lookup_seq in Hk as [-> Hk].
      unfold compose, block_range. cbn [Nat.add].
      apply pair_equal_spec. split; [lia|]. rewrite Z.min_l; nia.
    + unfold compose, block_range. cbn [Nat.add]. f_equal.
      apply pair_equal_spec. split; [lia|]. rewrite Z.min_l; nia.
    + unfold compose, block_range. cbn [Nat.add]. f_equal.
      apply pair_equal_spec. split; [lia|]. rewrite Z.min_r; nia.
  - rewrite index_last. cbn [rbind snd].
    rewrite (proj2 (Z.ltb_ge _ _)) by lia.
    f_equal. f_equal.
    + apply list_fmap_ext. intros j k Hk. apply lookup_seq in Hk as [-> Hk].
      unfold compose, block_range. cbn [Nat.add].
      apply pair_equal_spec. split; [lia|]. rewrite Z.min_l; nia.
    + unfold compose, block_range. cbn [Nat.add]. f_equal.
      apply pair_equal_spec. split; [lia|]. rewrite Z.min_l; nia.
Qed.

(** X4: the blocks of an axis.  For an axis of length [sh] in shards of
    [ss], [0 < ss <= sh], [_blocks] lists [ceil(sh / ss)] blocks; block
    [k] starts at [k * ss] and ends at [min(k * ss + ss, sh)], which is the
    real range [__block_idx_to_real_idx__] gives block index [k], the last
    block being shortened and none dropped. *)
Theorem blocks_axis_ranges self (i : nat) (sh ss : Z) :
  BigMatrix.shape self !! i = Some sh →
  BigMatrix.shard_sizes self !! i = Some ss →
  0 < ss → ss ≤ sh →
  BigMatrix.blocks_axis self i
  = Ok (block_range sh ss <$> seq 0 (Z.to_nat ((sh + ss - 1) `div` ss)))
  ∧ ∀ (k : nat) block_idx,
      block_idx !! i = Some (Z.of_nat k) →
      BigMatrix.real_idx_axis self block_idx i = Ok (block_range sh ss k).
Proof.
  intros Hsh Hss Hpos Hle. split.
  - exact (blocks_axis_eq self i sh ss Hsh Hss Hpos Hle).
  - intros k block_idx Hk. unfold BigMatrix.real_idx_axis.
    rewrite (index_lookup _ _ _ Hk), (index_lookup _ _ _ Hss), (index_lookup _ _ _ Hsh).
    reflexivity.
Qed.

(** X5: an axis shorter than its shard.  When the length of an axis is
    below its shard size, [_blocks] raises [IndexError] at that axis: it
    drops the only block it listed, or listed none, and then looks at the
    last one. *)
Theorem blocks_axis_short_axis self (i : nat) (sh ss : Z) :
  BigMatrix.shape self !! i = Some sh →
  BigMatrix.shard_sizes self !! i = Some ss →
  0 < ss → sh < ss →
  BigMatrix.blocks_axis self i = Raise IndexError.
Proof.
  intros Hsh Hss Hpos Hlt.
  unfold BigMatrix.blocks_axis.
  rewrite (index_lookup _ _ _ Hsh), (index_lookup _ _ _ Hss). cbn [rbind].
  unfold range. rewrite (proj2 (Z.eqb_neq ss 0)) by lia. cbn [rbind].
  unfold range_len. rewrite (proj2 (Z.ltb_lt 0 ss)) by exact Hpos.
  destruct (Z.le_gt_cases sh 0) as [Hneg|Hp].
  - rewrite Z.max_l; [reflexivity|].
    apply Z.lt_succ_r. apply Z.div_lt_upper_bound; lia.
  - assert ((sh - 0 + ss - 1) `div` ss = 1) as ->.
    { symmetry. apply Z.div_unique with (r := sh - 1); lia. }
    simpl. destruct (Z.gtb_spec (0 + Z.of_nat 0 * ss + ss) sh) as [_|Hc];
      [reflexivity|simpl in Hc; lia].
Qed.

End Enumeration.

Lemma blocks_axis_ranges_witness :
  BigMatrix.blocks_axis MoreExamples.mat54 0 = Ok [(0, 2); (2, 4); (4, 5)]
  ∧ BigMatrix.real_idx_axis MoreExamples.mat54 [2; 1] 0 = Ok (4, 5).
Proof.
  destruct (blocks_axis_ranges MoreExamples.mat54 0 5 2 eq_refl eq_refl ltac:(lia) ltac:(lia))
    as [Hblocks Hreal].
  split; [exact Hblocks|exact (Hreal 2%nat [2; 1] eq_refl)].
Defined.

Lemma blocks_axis_short_axis_witness :
  BigMatrix.blocks_axis MoreExamples.short_axis 0 = Raise IndexError.
Proof.
  exact (blocks_axis_short_axis MoreExamples.short_axis 0 3 5 eq_refl eq_refl ltac:(lia) ltac:(lia)).
Defined.

(** ** ShardedArray: reads and writes *)

Section Blocks.
Context `{Dtype R}.
Implicit Types (self : BigMatrix.t R) (w : S3.bucket R) (block : ndarray R).






(** What [put_block_async] without [no_overwrite] does. *)
Lemma put_block_async_plain fuel self block block_idx key real_idxs w :
  BigMatrix.__shard_idx_to_key__ self block_idx = Ok key →
  BigMatrix.__block_idx_to_real_idx__ self block_idx = Ok real_idxs →
  BigMatrix.put_block_async fuel self block block_idx false w
  = if bool_decide (nd_shape block = extents real_idxs)
    then S3.put_object key block w
    else (Raise (Exception "Incompatible block size"), w).
Proof.
  intros Hkey Hreal. unfold BigMatrix.put_block_async.
  unfold bind at 1. unfold lift at 1. rewrite Hkey.
  unfold bind at 1. unfold ret at 1.
  unfold bind at 1. unfold lift at 1. rewrite Hreal.
  fold (extents real_idxs).
  destruct (decide (nd_shape block = extents real_idxs)) as [Heq|Hne].
  - rewrite bool_decide_eq_false_2 by (intros Hc; exact (Hc Heq)).
    rewrite bool_decide_eq_true_2 by exact Heq. reflexivity.
  - rewrite bool_decide_eq_true_2 by exact Hne.
    rewrite bool_decide_eq_false_2 by exact Hne. reflexivity.
Qed.

Lemma shard_idx_to_key_real self block_idx key :
  BigMatrix.__shard_idx_to_key__ self block_idx = Ok key →
  ∃ real_idxs, BigMatrix.__block_idx_to_real_idx__ self block_idx = Ok real_idxs
               ∧ key = BigMatrix.__get_matrix_shard_key__ self real_idxs.
Proof.
  unfold BigMatrix.__shard_idx_to_key__.
  destruct (BigMatrix.__block_idx_to_real_idx__ self block_idx) as [r|e|]; simpl;
    intros Hk; try discriminate.
  injection Hk as <-. exists r. split; reflexivity.
Qed.

(** X7: a block whose shape is not the extent of its real range is refused:
    [put_block_async] raises and has made no call on the store and changed
    nothing in it. *)
Theorem put_block_wrong_shape_refused fuel self block block_idx real_idxs w :
  BigMatrix.__block_idx_to_real_idx__ self block_idx = Ok real_idxs →
  nd_shape block ≠ extents real_idxs →
  BigMatrix.put_block_async fuel self block block_idx false w
  = (Raise (Exception "Incompatible block size"), w).
Proof.
  intros Hreal Hne.
  rewrite (put_block_async_plain fuel self block block_idx
             (BigMatrix.__get_matrix_shard_key__ self real_idxs) real_idxs w).
  - rewrite bool_decide_eq_false_2 by exact Hne. reflexivity.
  - unfold BigMatrix.__shard_idx_to_key__. rewrite Hreal. reflexivity.
  - exact Hreal.
Qed.

Lemma get_block_async_stored fuel self block_idx key X w :
  length block_idx = length (BigMatrix.shape self) →
  BigMatrix.__shard_idx_to_key__ self block_idx = Ok key →
  S3.objects w !! key = Some X →
  head (S3.faults w) ≠ Some true →
  BigMatrix.get_block_async (S fuel) self block_idx w
  = (Ok X, {| S3.objects := S3.objects w; S3.faults := tail (S3.faults w);
              S3.calls := S3.calls w ++ [S3.HeadObject key; S3.GetObject key] |}).
Proof.
  intros Hlen Hkey Hobj Hf.
  unfold BigMatrix.get_block_async.
  rewrite Hlen, Nat.eqb_refl. cbn [negb].
  unfold bind at 1. unfold lift at 1. rewrite Hkey.
  unfold bind at 1. unfold S3.key_exists_async at 1.
  rewrite Hobj. rewrite bool_decide_eq_true_2 by (by eexists).
  unfold BigMatrix.__s3_key_to_byte_io__. unfold bind at 1.
  simpl BigMatrix.read_loop.
  unfold bind at 1. unfold try_except, bind, S3.get_object, ret.
  cbn [S3.log S3.objects S3.calls S3.faults]. rewrite Hobj.
  destruct (S3.faults w) as [|[|] fs]; [| exfalso; apply Hf; reflexivity |];
    simpl; destruct fuel; simpl; rewrite <- app_assoc; reflexivity.
Qed.

(** X8: round trip on a plain array.  After a [put_block_async] that
    returned, [get_block_async] of the same index (its arity that of the
    array, the coming read not failing) returns the block that was put. *)
Theorem put_get_round_trip fuel fuel' self block block_idx w w1 :
  length block_idx = length (BigMatrix.shape self) →
  BigMatrix.put_block_async fuel self block block_idx false w = (Ok tt, w1) →
  head (S3.faults w1) ≠ Some true →
  fst (BigMatrix.get_block_async (S fuel') self block_idx w1) = Ok block.
Proof.
  intros Hlen Hput Hf.
  destruct (BigMatrix.__shard_idx_to_key__ self block_idx) as [key|e|] eqn:Hkey.
  - destruct (shard_idx_to_key_real self block_idx key Hkey) as (real_idxs & Hreal & _).
    rewrite (put_block_async_plain fuel self block block_idx key real_idxs w Hkey Hreal)
      in Hput.
    destruct (bool_decide _); [|discriminate].
    unfold S3.put_object in Hput. injection Hput as <-.
    rewrite (get_block_async_stored fuel' self block_idx key block); try assumption.
    + reflexivity.
    + cbn [S3.objects]. apply lookup_insert_eq.
  - unfold BigMatrix.put_block_async, bind, lift in Hput. rewrite Hkey in Hput. discriminate.
  - unfold BigMatrix.put_block_async, bind, lift in Hput. rewrite Hkey in Hput. discriminate.
Qed.



(** X10: [no_overwrite] on a plain array.  When a block is stored under the
    key and [np.allclose] finds the new block different from it,
    [put_block_async] fails its assertion and the stored objects are
    unchanged; the old block is still the one stored. *)
Theorem put_block_no_overwrite_conflict fuel self block old_block block_idx key w :
  length block_idx = length (BigMatrix.shape self) →
  BigMatrix.__shard_idx_to_key__ self block_idx = Ok key →
  S3.objects w !! key = Some old_block →
  head (S3.faults w) ≠ Some true →
  allclose old_block block = false →
  BigMatrix.put_block_async (S fuel) self block block_idx true w
  = (Raise AssertionError,
     {| S3.objects := S3.objects w; S3.faults := tail (S3.faults w);
        S3.calls := S3.calls w ++ [S3.HeadObject key; S3.HeadObject key;
                                   S3.GetObject key] |}).
Proof.
  intros Hlen Hkey Hobj Hf Hclose. unfold BigMatrix.put_block_async.
  unfold bind at 1. unfold lift at 1. rewrite Hkey.
  unfold bind at 1. unfold bind at 1. unfold S3.key_exists_async at 1.
  rewrite Hobj. rewrite bool_decide_eq_true_2 by (by eexists).
  unfold bind at 1.
  rewrite (get_block_async_stored fuel self block_idx key old_block); try assumption.
  rewrite Hclose. unfold raise. cbn [S3.log S3.objects S3.calls S3.faults].
  rewrite <- app_assoc. reflexivity.
Qed.

(** X11: [no_overwrite] when nothing is stored under the key, or when the
    stored block is close to the new one: the put goes on as without
    [no_overwrite] (the shape check, then the write). *)
Theorem put_block_no_overwrite_proceeds fuel self block block_idx key real_idxs w :
  length block_idx = length (BigMatrix.shape self) →
  BigMatrix.__shard_idx_to_key__ self block_idx = Ok key →
  BigMatrix.__block_idx_to_real_idx__ self block_idx = Ok real_idxs →
  nd_shape block = extents real_idxs →
  head (S3.faults w) ≠ Some true →
  match S3.objects w !! key with
  | Some old_block => allclose old_block block = true
  | None => True
  end →
  ∃ w1, BigMatrix.put_block_async (S fuel) self block block_idx true w = (Ok tt, w1)
        ∧ S3.objects w1 = <[key := block]> (S3.objects w)
        ∧ last (S3.calls w1) = Some (S3.PutObject key).
Proof.
  intros Hlen Hkey Hreal Hshape Hf Hold. unfold BigMatrix.put_block_async.
  unfold bind at 1. unfold lift at 1. rewrite Hkey.
  unfold bind at 1. unfold bind at 1. unfold S3.key_exists_async at 1.
  fold (extents real_idxs).
  destruct (S3.objects w !! key) as [old_block|] eqn:Hobj.
  - rewrite bool_decide_eq_true_2 by (by eexists).
    unfold bind at 1.
    rewrite (get_block_async_stored fuel self block_idx key old_block); try assumption.
    rewrite Hold. unfold ret at 1.
    unfold bind at 1. unfold lift at 1. rewrite Hreal.
    fold (extents real_idxs).
    rewrite bool_decide_eq_false_2 by (intros Hc; exact (Hc Hshape)).
    unfold BigMatrix.__save_matrix_to_s3__, S3.put_object. eexists. split; [reflexivity|].
    cbn [S3.objects S3.calls S3.log]. split; [reflexivity|]. apply last_snoc.
  - rewrite bool_decide_eq_false_2 by (intros [? ?]; discriminate).
    unfold ret at 1.
    unfold bind at 1. unfold lift at 1. rewrite Hreal.
    fold (extents real_idxs).
    rewrite bool_decide_eq_false_2 by (intros Hc; exact (Hc Hshape)).
    unfold BigMatrix.__save_matrix_to_s3__, S3.put_object. eexists. split; [reflexivity|].
    cbn [S3.objects S3.calls S3.log]. split; [reflexivity|]. apply last_snoc.
Qed.

End Blocks.

Lemma put_block_wrong_shape_refused_witness :
  BigMatrix.put_block_async 1 Examples.mat44 MoreExamples.ones [0; 1] false Examples.empty_bucket
  = (Raise (Exception "Incompatible block size"), Examples.empty_bucket).
Proof.
  refine (put_block_wrong_shape_refused 1 Examples.mat44 MoreExamples.ones [0; 1] [(0, 2); (2, 4)]
            Examples.empty_bucket eq_refl _).
  discriminate.
Defined.

Lemma put_get_round_trip_witness :
  fst (BigMatrix.get_block_async 1 Examples.mat44 [0; 1]
         (snd (BigMatrix.put_block_async 0 Examples.mat44 Examples.block22 [0; 1] false
                 Examples.empty_bucket)))
  = Ok Examples.block22.
Proof.
  refine (put_get_round_trip 0 0 Examples.mat44 Examples.block22 [0; 1]
            Examples.empty_bucket _ eq_refl eq_refl _).
  discriminate.
Defined.


Lemma put_block_no_overwrite_conflict_witness :
  BigMatrix.put_block_async 1 Examples.mat44 MoreExamples.nines22 [0; 1] true MoreExamples.stored_bucket
  = (Raise AssertionError,
     {| S3.objects := S3.objects MoreExamples.stored_bucket; S3.faults := [];
        S3.calls := [S3.HeadObject "numpywren.objects/m/0_2_2_2_4_2_";
                     S3.HeadObject "numpywren.objects/m/0_2_2_2_4_2_";
                     S3.GetObject "numpywren.objects/m/0_2_2_2_4_2_"] |}).
Proof.
  refine (put_block_no_overwrite_conflict 0 Examples.mat44 MoreExamples.nines22 Examples.block22 [0; 1]
            "numpywren.objects/m/0_2_2_2_4_2_" MoreExamples.stored_bucket eq_refl eq_refl eq_refl _
            eq_refl).
  discriminate.
Defined.

Lemma put_block_no_overwrite_proceeds_witness :
  ∃ w1, BigMatrix.put_block_async 1 Examples.mat44 Examples.block22 [0; 1] true MoreExamples.stored_bucket
        = (Ok tt, w1)
        ∧ S3.objects w1
          = <["numpywren.objects/m/0_2_2_2_4_2_" := Examples.block22]>
              (S3.objects MoreExamples.stored_bucket)
        ∧ last (S3.calls w1) = Some (S3.PutObject "numpywren.objects/m/0_2_2_2_4_2_").
Proof.
  refine (put_block_no_overwrite_proceeds 0 Examples.mat44 Examples.block22 [0; 1]
            "numpywren.objects/m/0_2_2_2_4_2_" [(0, 2); (2, 4)] MoreExamples.stored_bucket
            eq_refl eq_refl eq_refl eq_refl _ eq_refl).
  discriminate.
Defined.

Section SymmetricBlocks.
Context `{Dtype R}.
Implicit Types (self : BigMatrix.t R) (w : S3.bucket R) (block : ndarray R).







End SymmetricBlocks.



(** ** The block indices of a symmetric array *)


Lemma tuple_ltb_irrefl (a : list Z) : tuple_ltb a a = false.
Proof.
  induction a as [|x a IH]; [reflexivity|].
  cbn [tuple_ltb]. rewrite Z.ltb_irrefl, Z.eqb_refl, IH. reflexivity.
Qed.

Lemma tuple_lt_trans (a b c : list Z) : tuple_lt a b → tuple_lt b c → tuple_lt a c.
Proof.
  unfold tuple_lt. revert b c.
  induction a as [|x a IH]; intros [|y b] [|z c]; cbn [tuple_ltb]; try discriminate;
    try reflexivity.
  intros Hab Hbc.
  apply orb_true_iff in Hab as [Hab|Hab]; apply orb_true_iff in Hbc as [Hbc|Hbc];
    apply orb_true_iff.
  - left. apply Z.ltb_lt. apply Z.ltb_lt in Hab, Hbc. lia.
  - apply andb_true_iff in Hbc as [Hyz _]. apply Z.eqb_eq in Hyz as <-. left. exact Hab.
  - apply andb_true_iff in Hab as [Hxy _]. apply Z.eqb_eq in Hxy as ->. left. exact Hbc.
  - apply andb_true_iff in Hab as [Hxy Hab]. apply andb_true_iff in Hbc as [Hyz Hbc].
    apply Z.eqb_eq in Hxy as ->. right. rewrite Hyz. exact (IH b c Hab Hbc).
Qed.

Lemma tuple_lt_total (a b : list Z) : tuple_ltb a b = false → a ≠ b → tuple_lt b a.
Proof.
  unfold tuple_lt. revert b.
  induction a as [|x a IH]; intros [|y b]; cbn [tuple_ltb]; try discriminate;
    try reflexivity; [intros _ Hne; destruct (Hne eq_refl)|].
  intros Hab Hne. apply orb_false_iff in Hab as [Hlt Hab].
  apply Z.ltb_ge in Hlt. apply orb_true_iff.
  destruct (Z.eqb_spec x y) as [->|Hxy].
  - right. rewrite Z.eqb_refl. cbn [andb] in Hab |- *.
    apply IH; [exact Hab|congruence].
  - left. apply Z.ltb_lt. lia.
Qed.

Lemma elem_of_insert_sorted (x y : list Z) (l : list (list Z)) :
  y ∈ insert_sorted x l ↔ y = x ∨ y ∈ l.
Proof.
  induction l as [|z l IH]; cbn [insert_sorted].
  - rewrite list_elem_of_singleton, elem_of_nil. tauto.
  - destruct (decide (x = z)) as [->|Hne].
    + rewrite elem_of_cons. tauto.
    + destruct (tuple_ltb x z).
      * rewrite elem_of_cons. tauto.
      * rewrite !elem_of_cons, IH. tauto.
Qed.

Lemma insert_sorted_sorted (x : list Z) (l : list (list Z)) :
  StronglySorted tuple_lt l → StronglySorted tuple_lt (insert_sorted x l).
Proof.
  induction 1 as [|z l Hl IH Hz]; cbn [insert_sorted].
  - repeat constructor.
  - destruct (decide (x = z)) as [->|Hne]; [constructor; assumption|].
    destruct (tuple_ltb x z) eqn:Hxz.
    + constructor; [constructor; assumption|].
      constructor; [exact Hxz|].
      eapply Forall_impl; [exact Hz|]. intros w Hw. exact (tuple_lt_trans x z w Hxz Hw).
    + constructor; [exact IH|].
      apply Forall_forall. intros w Hw. apply elem_of_insert_sorted in Hw as [->|Hw].
      * apply tuple_lt_total; assumption.
      * rewrite Forall_forall in Hz. apply Hz. exact Hw.
Qed.

Lemma sorted_set_sorted (l : list (list Z)) : StronglySorted tuple_lt (sorted_set l).
Proof.
  induction l as [|x l IH]; [constructor|]. apply insert_sorted_sorted. exact IH.
Qed.

Lemma elem_of_sorted_set (y : list Z) (l : list (list Z)) : y ∈ sorted_set l ↔ y ∈ l.
Proof.
  induction l as [|x l IH]; [reflexivity|].
  cbn [sorted_set foldr]. rewrite elem_of_insert_sorted, elem_of_cons.
  unfold sorted_set in IH. rewrite IH. reflexivity.
Qed.

Lemma sorted_NoDup (l : list (list Z)) : StronglySorted tuple_lt l → NoDup l.
Proof.
  induction 1 as [|z l Hl IH Hz]; [constructor|].
  constructor; [|exact IH].
  intros Hin. rewrite Forall_forall in Hz. specialize (Hz z Hin).
  unfold tuple_lt in Hz. rewrite tuple_ltb_irrefl in Hz. discriminate.
Qed.

Section SymmetricEnumeration.
Context `{Dtype R}.
Implicit Types (self : BigMatrix.t R).

(** X14: the block indices of a symmetric array.  When the property
    [block_idxs] returns, its list is in increasing order and holds no
    index twice, and an index is in it exactly when it is the canonical
    index of some block index of the whole array. *)
Theorem sym_block_idxs_canonical self (l : list (list Z)) :
  BigMatrix.symmetric self = true →
  block_idxs self = Ok l →
  ∃ full, BigMatrix._block_idxs self = Ok full
    ∧ StronglySorted tuple_lt l
    ∧ NoDup l
    ∧ ∀ idx, idx ∈ l ↔ ∃ x, x ∈ full ∧ BigSymmetricMatrix._symmetrize_idx x = Ok idx.
Proof.
  intros Hsym. unfold block_idxs. rewrite Hsym.
  unfold BigSymmetricMatrix._block_idxs.
  destruct (BigMatrix._block_idxs self) as [full|e|]; cbn [rbind]; try discriminate.
  unfold BigSymmetricMatrix._symmetrize_all_idxs.
  destruct (rmapM BigSymmetricMatrix._symmetrize_idx full) as [canon|e|] eqn:Hmap;
    cbn [rbind]; try discriminate.
  intros [= <-]. exists full. split; [reflexivity|].
  split; [apply sorted_set_sorted|].
  split; [apply sorted_NoDup, sorted_set_sorted|].
  intros idx. rewrite elem_of_sorted_set.
  apply rmapM_Ok_inv in Hmap. split.
  - intros Hin. apply list_elem_of_lookup in Hin as [i Hi].
    destruct (Forall2_lookup_r _ _ _ _ _ Hmap Hi) as (x & Hx & Hsx).
    exists x. split; [|exact Hsx]. apply list_elem_of_lookup. eauto.
  - intros (x & Hx & Hsx). apply list_elem_of_lookup in Hx as [i Hi].
    destruct (Forall2_lookup_l _ _ _ _ _ Hmap Hi) as (y & Hy & Hsy).
    rewrite Hsx in Hsy. injection Hsy as <-. apply list_elem_of_lookup. eauto.
Qed.

End SymmetricEnumeration.

Lemma sym_block_idxs_canonical_witness :
  ∃ full, BigMatrix._block_idxs Examples.sym44 = Ok full
    ∧ StronglySorted tuple_lt [[0; 0]; [1; 0]; [1; 1]]
    ∧ NoDup [[0; 0]; [1; 0]; [1; 1]]
    ∧ ∀ idx, idx ∈ [[0; 0]; [1; 0]; [1; 1]]
             ↔ ∃ x, x ∈ full ∧ BigSymmetricMatrix._symmetrize_idx x = Ok idx.
Proof.
  exact (sym_block_idxs_canonical Examples.sym44 [[0; 0]; [1; 0]; [1; 1]] eq_refl eq_refl).
Defined.

(** ** Views *)


Section Views.
Context `{Dtype R}.
Implicit Types (self : BigMatrix.t R) (v : BigMatrixView.t R).









End Views.



Section ViewIndex.
Context `{Dtype R}.
Implicit Types (v : BigMatrixView.t R) (slices : list BigMatrixView.slice).

Lemma translate_inv slices : ∀ (idx parent_idx : list Z),
  BigMatrixView.translate slices idx = Ok parent_idx →
  (length idx ≤ length slices)%nat →
  Forall (λ s, BigMatrixView.step s ≠ 0) slices →
  BigMatrixView.to_view parent_idx slices = Ok idx
  ∧ Forall2 (λ p s, 0 ≤ p < BigMatrixView.stop s) parent_idx (take (length idx) slices).
Proof.
  induction slices as [|s slices IH]; intros [|b idx] parent_idx Htr Hlen Hnz;
    cbn [BigMatrixView.translate length] in *; try lia.
  - injection Htr as <-. split; [reflexivity|constructor].
  - injection Htr as <-. split; [reflexivity|constructor].
  - apply Forall_cons in Hnz as [Hs Hnz].
    destruct (Z.ltb_spec (b * BigMatrixView.step s + BigMatrixView.start s) 0) as [|Hge0];
      [discriminate|].
    destruct (Z.geb_spec (b * BigMatrixView.step s + BigMatrixView.start s)
                (BigMatrixView.stop s)) as [|Hlt]; [discriminate|].
    destruct (BigMatrixView.translate slices idx) as [rest|e|] eqn:Hrest;
      cbn [rbind] in Htr; try discriminate.
    injection Htr as <-.
    destruct (IH idx rest Hrest ltac:(lia) Hnz) as [Hview Hbounds].
    cbn [BigMatrixView.to_view take]. unfold BigMatrixView.floordiv.
    rewrite (proj2 (Z.eqb_neq _ 0)) by exact Hs. cbn [rbind].
    rewrite Hview. cbn [rbind].
    replace (b * BigMatrixView.step s + BigMatrixView.start s - BigMatrixView.start s)
      with (b * BigMatrixView.step s) by lia.
    rewrite Z.div_mul by exact Hs. split; [reflexivity|].
    constructor; [lia|exact Hbounds].
Qed.

(** X17: from a view index to the parent's and back.  When
    [__view_to_parent_block_idx__] returns for a view index of the view's
    arity, every entry of the parent index is at least 0 and below the
    [stop] of its slice, and [__parent_to_view_block_idx__] gives the view
    index back. *)
Theorem view_parent_round_trip v (view_idx parent_idx : list Z) :
  length view_idx = length (BigMatrixView.shape v) →
  length (BigMatrixView.parent_slices v) = length (BigMatrixView.shape v) →
  Forall (λ s, BigMatrixView.step s ≠ 0) (BigMatrixView.parent_slices v) →
  BigMatrixView.__view_to_parent_block_idx__ v view_idx = Ok parent_idx →
  BigMatrixView.__parent_to_view_block_idx__ v parent_idx = Ok view_idx
  ∧ Forall2 (λ p s, 0 ≤ p < BigMatrixView.stop s) parent_idx (BigMatrixView.parent_slices v).
Proof.
  intros Hlen Hsl Hnz. unfold BigMatrixView.__view_to_parent_block_idx__.
  rewrite Hlen, Nat.ltb_irrefl. cbn [rbind]. rewrite Hlen, Nat.eqb_refl. cbn [negb].
  intros Htr. unfold BigMatrixView.__parent_to_view_block_idx__.
  destruct (BigMatrixView.transposed v).
  - destruct (translate_inv _ _ _ Htr) as [Hview Hb];
      [rewrite length_rev; lia|exact Hnz|].
    rewrite Hview. cbn [rbind]. rewrite rev_involutive. split; [reflexivity|].
    rewrite length_rev, Hlen, <- Hsl, firstn_all in Hb. exact Hb.
  - destruct (translate_inv _ _ _ Htr) as [Hview Hb]; [lia|exact Hnz|].
    rewrite Hview. cbn [rbind]. split; [reflexivity|].
    rewrite Hlen, <- Hsl, firstn_all in Hb. exact Hb.
Qed.

Lemma to_view_inv slices : ∀ (parent_idx : list Z),
  BigMatrixView.is_valid parent_idx slices = Ok true →
  length parent_idx = length slices →
  ∃ idx, BigMatrixView.to_view parent_idx slices = Ok idx
         ∧ length idx = length slices
         ∧ BigMatrixView.translate slices idx = Ok parent_idx.
Proof.
  induction slices as [|s slices IH]; intros [|p parent_idx] Hvalid Hlen;
    cbn [length] in Hlen; try lia.
  - exists []. repeat split.
  - cbn [BigMatrixView.is_valid] in Hvalid.
    destruct (Z.ltb_spec p 0) as [|Hge0]; [discriminate|].
    destruct (Z.ltb_spec p (BigMatrixView.start s)) as [|Hstart]; [discriminate|].
    destruct (Z.geb_spec p (BigMatrixView.stop s)) as [|Hstop]; [discriminate|].
    unfold BigMatrixView.mod_ in Hvalid.
    destruct (Z.eqb_spec (BigMatrixView.step s) 0) as [|Hs]; [discriminate|].
    cbn [rbind] in Hvalid.
    destruct (Z.eqb_spec ((p - BigMatrixView.start s) `mod` BigMatrixView.step s) 0)
      as [Hmod|]; [|discriminate].
    cbn [negb] in Hvalid.
    destruct (IH parent_idx Hvalid ltac:(lia)) as (idx & Hview & Hl & Htr).
    exists ((p - BigMatrixView.start s) `div` BigMatrixView.step s :: idx).
    cbn [BigMatrixView.to_view BigMatrixView.translate length].
    unfold BigMatrixView.floordiv.
    rewrite (proj2 (Z.eqb_neq _ 0)) by exact Hs. cbn [rbind]. rewrite Hview. cbn [rbind].
    split; [reflexivity|split; [lia|]].
    pose proof (Z.div_mod (p - BigMatrixView.start s) (BigMatrixView.step s) Hs) as Hdm.
    replace ((p - BigMatrixView.start s) `div` BigMatrixView.step s * BigMatrixView.step s
             + BigMatrixView.start s) with p by lia.
    rewrite (proj2 (Z.ltb_ge p 0)) by lia.
    destruct (Z.geb_spec p (BigMatrixView.stop s)) as [|_]; [lia|].
    rewrite Htr. reflexivity.
Qed.

(** X18: from a parent index to the view's and back.  A parent index that
    [__is_valid_parent_block_idx__] accepts has a view index, of the
    view's arity, and [__view_to_parent_block_idx__] translates that view
    index to the parent index again. *)
Theorem parent_view_round_trip v (parent_idx : list Z) :
  length parent_idx = length (BigMatrixView.shape v) →
  length (BigMatrixView.parent_slices v) = length (BigMatrixView.shape v) →
  BigMatrixView.__is_valid_parent_block_idx__ v parent_idx = Ok true →
  ∃ view_idx,
    BigMatrixView.__parent_to_view_block_idx__ v parent_idx = Ok view_idx
    ∧ BigMatrixView.__view_to_parent_block_idx__ v view_idx = Ok parent_idx.
Proof.
  intros Hlen Hsl Hvalid. unfold BigMatrixView.__is_valid_parent_block_idx__ in Hvalid.
  destruct (to_view_inv _ _ Hvalid ltac:(lia)) as (idx & Hview & Hl & Htr).
  unfold BigMatrixView.__parent_to_view_block_idx__, BigMatrixView.__view_to_parent_block_idx__.
  rewrite Hview. cbn [rbind].
  exists (if BigMatrixView.transposed v then rev idx else idx). split; [reflexivity|].
  assert (length (if BigMatrixView.transposed v then rev idx else idx)
          = length (BigMatrixView.shape v)) as Hlv
    by (destruct (BigMatrixView.transposed v); rewrite ?length_rev; lia).
  rewrite Hlv, Nat.ltb_irrefl. cbn [rbind]. rewrite Hlv, Nat.eqb_refl. cbn [negb].
  destruct (BigMatrixView.transposed v); rewrite ?rev_involutive; exact Htr.
Qed.

End ViewIndex.

Lemma view_parent_round_trip_witness :
  BigMatrixView.__parent_to_view_block_idx__ Examples.view_2_5 [3] = Ok [1]
  ∧ Forall2 (λ p s, 0 ≤ p < BigMatrixView.stop s) [3]
      (BigMatrixView.parent_slices Examples.view_2_5).
Proof.
  refine (view_parent_round_trip Examples.view_2_5 [1] [3] eq_refl eq_refl _ eq_refl).
  repeat constructor; discriminate.
Defined.

Lemma parent_view_round_trip_witness :
  ∃ view_idx,
    BigMatrixView.__parent_to_view_block_idx__ Examples.view_2_5 [4] = Ok view_idx
    ∧ BigMatrixView.__view_to_parent_block_idx__ Examples.view_2_5 view_idx = Ok [4].
Proof.
  exact (parent_view_round_trip Examples.view_2_5 [4] eq_refl eq_refl eq_refl).
Defined.

(** ** InstructionExecutor: the other ways a block ends *)

Section ExecutorEdges.
Import LambdaPackExecutor ExecutorCases.
Context {Σ : Type}.
Implicit Types (program : Program Σ) (σ : Σ) (log evs : list event)
  (instrs : list (instr Σ)) (pc : Z) (pcs : list Z).

Lemma run_from_reaches_then program pc σ visited evs pc' σ1 :
  reaches program pc σ visited evs pc' σ1 →
  ∀ (r : result (list Z)) σ2 evs',
    (∀ pcs log, run_pc program pcs pc' (σ1, log) = (r, (σ2, log ++ evs'))) →
    (∀ l, r ≠ Ok l) →
    ∀ fuel pre log, (length visited < fuel)%nat →
      run_from fuel program (pre ++ [pc]) (length pre) (σ, log)
      = (rbind r (λ _, Ok tt), (σ2, log ++ evs ++ evs')).
Proof.
  induction 1 as [pc σ | pc σ σ1 next n visited evs pc' σ' Hblk Hre IH];
    intros r σ2 evs' Hpc Hr fuel pre log Hfuel; simpl in Hfuel;
    (destruct fuel as [|fuel]; [lia|]); simpl.
  - rewrite list_lookup_middle by reflexivity.
    unfold bind at 1. rewrite Hpc.
    destruct r as [l|e|]; [destruct (Hr l eq_refl)|reflexivity|reflexivity].
  - rewrite list_lookup_middle by reflexivity.
    unfold bind at 1. rewrite (run_pc_ok _ _ _ _ _ _ _ _ Hblk). simpl.
    replace (S (length pre)) with (length (pre ++ [pc]))
      by (rewrite length_app; simpl; lia).
    rewrite (IH r σ2 evs' Hpc Hr) by lia.
    unfold block_events. simpl. rewrite <- !app_assoc. simpl.
    rewrite <- ?app_assoc. reflexivity.
Qed.

(** X19: what happens before the [try].  When [pre_op] raises, or the
    program has no block for the counter, [run] raises that error
    ([KeyError] for the missing block) and [post_op] is not called for the
    counter, neither with [SUCCESS] nor with [EXCEPTION]. *)
Theorem run_failure_before_try program pc σ visited evs pc' σ1 e σ2 :
  reaches program pc σ visited evs pc' σ1 →
  block_not_started program pc' σ1 e σ2 →
  ∀ fuel log, (length visited < fuel)%nat →
    run fuel program pc (σ, log) = (Raise e, (σ2, log ++ evs ++ [PreOp pc'])).
Proof.
  intros Hre Hns fuel log Hfuel.
  assert (∀ pcs log', run_pc program pcs pc' (σ1, log')
                      = (Raise e, (σ2, log' ++ [PreOp pc']))) as Hpc.
  { intros pcs log'. unfold run_pc. unfold bind at 1. unfold emit, modify.
    unfold bind at 1. unfold call at 1.
    destruct Hns as [Hpre | (Hpre & Hblk & ->)]; rewrite Hpre; [reflexivity|].
    unfold bind at 1. rewrite Hblk. reflexivity. }
  exact (run_from_reaches_then program pc σ visited evs pc' σ1 Hre
           (Raise e) σ2 [PreOp pc'] Hpc ltac:(discriminate) fuel [] log Hfuel).
Qed.

(** X20: a failing [post_op].  When every instruction of a block returns
    and [post_op pc SUCCESS] then raises, that call was inside the [try]:
    [post_op] is called a second time for the counter, with [EXCEPTION]
    and the traceback of the first call's error, and [run] does not
    return. *)
Theorem run_post_op_success_raises program pc σ visited evs pc' σ1 e σ3 n r σ4 :
  reaches program pc σ visited evs pc' σ1 →
  post_op_raises program pc' σ1 e σ3 n →
  post_op program pc' EXCEPTION (Some (format_exc e)) σ3 = (r, σ4) →
  ∀ fuel log, (length visited < fuel)%nat →
    run fuel program pc (σ, log)
    = (match r with Ok _ => Raise e | Raise e' => Raise e' | Timeout => Timeout end,
       (σ4, log ++ evs ++ block_events pc' n
                 ++ [PostOp pc' EXCEPTION (Some (format_exc e))])).
Proof.
  intros Hre (instrs & σa & σb & Hblk & -> & Hpre & Hex & Hpost) Hexc fuel log Hfuel.
  assert (∀ pcs log', run_pc program pcs pc' (σ1, log')
            = (match r with
               | Ok _ => Raise e | Raise e' => Raise e' | Timeout => Timeout
               end,
               (σ4, log' ++ block_events pc' (length instrs)
                         ++ [PostOp pc' EXCEPTION (Some (format_exc e))]))) as Hpc.
  { intros pcs log'. unfold run_pc. unfold bind at 1. unfold emit, modify.
    unfold bind at 1. unfold call at 1. rewrite Hpre.
    unfold bind at 1. rewrite Hblk. unfold ret at 1.
    unfold try_except. unfold bind at 1.
    rewrite (run_instrs_ok pc' instrs 0 σa σb _ Hex).
    unfold bind at 1. unfold emit, modify.
    unfold bind at 1. unfold call at 1. rewrite Hpost.
    unfold bind at 1. unfold bind at 1. unfold call. rewrite Hexc.
    unfold block_events. simpl.
    destruct r as [nx|e'|]; unfold raise; simpl;
      rewrite <- ?app_assoc; simpl; rewrite <- ?app_assoc; reflexivity. }
  pose proof (run_from_reaches_then program pc σ visited evs pc' σ1 Hre _ σ4 _ Hpc
                ltac:(destruct r; discriminate) fuel [] log Hfuel) as Hrun.
  unfold run. simpl in Hrun. rewrite Hrun. destruct r; reflexivity.
Qed.

Lemma run_from_never_ends program (P : Z → Σ → Prop) :
  never_ends program P →
  ∀ fuel pc σ pre log, P pc σ →
    fst (run_from fuel program (pre ++ [pc]) (length pre) (σ, log)) = Timeout.
Proof.
  intros Hne. induction fuel as [|fuel IH]; intros pc σ pre log HP; simpl.
  - rewrite list_lookup_middle by reflexivity. reflexivity.
  - rewrite list_lookup_middle by reflexivity.
    destruct (Hne pc σ HP) as (next & σ' & n & Hblk & HP').
    unfold bind at 1. rewrite (run_pc_ok _ _ _ _ _ _ _ _ Hblk). simpl.
    replace (S (length pre)) with (length (pre ++ [pc]))
      by (rewrite length_app; simpl; lia).
    apply IH. exact HP'.
Qed.

(** X21: a chain without an end.  When from every counter the chain gets
    to the block runs to its end and [post_op] names another counter, no
    amount of fuel lets [run] return or raise: the loop over the worklist
    goes on for ever. *)
Theorem run_never_returns program (P : Z → Σ → Prop) pc σ :
  never_ends program P → P pc σ →
  ∀ fuel log, fst (run fuel program pc (σ, log)) = Timeout.
Proof.
  intros Hne HP fuel log.
  exact (run_from_never_ends program P Hne fuel pc σ [] log HP).
Qed.

End ExecutorEdges.

Lemma run_failure_before_try_witness :
  LambdaPackExecutor.run 2 Examples.chain_program 1 (([Some 7], []), [])
  = (Raise KeyError,
     (([], [10; 11]),
      [LambdaPackExecutor.PreOp 1;
       LambdaPackExecutor.Call 1 0; LambdaPackExecutor.Call 1 1;
       LambdaPackExecutor.PostOp 1 LambdaPackExecutor.SUCCESS None;
       LambdaPackExecutor.PreOp 7])).
Proof.
  refine (run_failure_before_try Examples.chain_program 1 ([Some 7], []) [1]
            (LambdaPackExecutor.block_events 1 2 ++ []) 7 ([], [10; 11]) KeyError
            ([], [10; 11]) _ _ 2%nat [] _).
  - apply LambdaPackExecutor.reaches_next with (σ1 := ([], [10; 11])) (next := 7).
    + exists [Examples.mark 10; Examples.mark 11], ([Some 7], []), ([Some 7], [10; 11]).
      repeat split; reflexivity.
    + apply LambdaPackExecutor.reaches_here.
  - right. repeat split; reflexivity.
  - simpl. lia.
Defined.

Lemma run_post_op_success_raises_witness :
  LambdaPackExecutor.run 1 MoreExamples.raising_post_program 1 (([], []), [])
  = (Raise (Exception "state store"),
     (([], [10]),
      [LambdaPackExecutor.PreOp 1; LambdaPackExecutor.Call 1 0;
       LambdaPackExecutor.PostOp 1 LambdaPackExecutor.SUCCESS None;
       LambdaPackExecutor.PostOp 1 LambdaPackExecutor.EXCEPTION
         (Some (format_exc (Exception "state store")))])).
Proof.
  refine (run_post_op_success_raises MoreExamples.raising_post_program 1 ([], []) [] [] 1 ([], [])
            (Exception "state store") ([], [10]) 1%nat (Ok None) ([], [10])
            _ _ _ 1%nat [] _).
  - apply LambdaPackExecutor.reaches_here.
  - exists [Examples.mark 10], ([], []), ([], [10]). repeat split; reflexivity.
  - reflexivity.
  - simpl. lia.
Defined.

Lemma run_never_returns_witness :
  fst (LambdaPackExecutor.run 50 MoreExamples.looping_program 1 (([], []), [])) = Timeout.
Proof.
  refine (run_never_returns MoreExamples.looping_program (λ pc _, pc = 1) 1 ([], []) _ eq_refl
            50%nat []).
  intros pc σ ->. exists 1, (fst σ, snd σ ++ [10]), 1%nat. split; [|reflexivity].
  exists [Examples.mark 10], σ, (fst σ, snd σ ++ [10]). repeat split; reflexivity.
Defined.

(** ** WorkerLoop: the whole cycle *)

Section WorkerCycleFacts.
Import WorkerLoop LambdaPackExecutor WorkerCycle.
Context {Q Σ : Type}.
Variable receive_message : string → Z → ST Q response.
Variable delete_message : string → string → ST Q unit.
Variable int : string → result Z.
Implicit Types (program : Program Σ) (s : state Q Σ).

Lemma cycle_selected fuel program loc s loc' url msg q2 pc :
  select_message receive_message (queue_urls program) loc (sqs s)
  = (Ok (loc', Some (url, msg)), q2) →
  int (Body msg) = Ok pc →
  cycle receive_message delete_message int fuel program loc s
  = (on_exec (run fuel program pc) ;;;
     sqs_delete delete_message url (ReceiptHandle msg) ;;;
     ret loc') {| sqs := q2; deleted := deleted s; exec := exec s |}.
Proof.
  intros Hsel Hint. unfold cycle. unfold bind at 1. unfold on_sqs at 1.
  rewrite Hsel. cbn [snd fst]. unfold bind at 1. unfold lift at 1. rewrite Hint.
  reflexivity.
Qed.

(** X22: a message is deleted only after its chain has run.  When the
    cycle selects a message and every block of the chain of its counter
    runs to its end, the cycle makes one delete request, for that message
    on the queue it came from, after the executor has finished; the
    queue service is left as that delete leaves it. *)
Theorem cycle_deletes_after_run fuel program loc s loc' url msg q2 pc σ log
    visited evs σ' :
  select_message receive_message (queue_urls program) loc (sqs s)
  = (Ok (loc', Some (url, msg)), q2) →
  int (Body msg) = Ok pc →
  exec s = (σ, log) →
  chain program pc σ visited evs σ' →
  (length visited ≤ fuel)%nat →
  cycle receive_message delete_message int fuel program loc s
  = (rbind (fst (delete_message url (ReceiptHandle msg) (fst q2))) (λ _, Ok loc'),
     {| sqs := (snd (delete_message url (ReceiptHandle msg) (fst q2)), snd q2);
        deleted := deleted s ++ [(url, ReceiptHandle msg)];
        exec := (σ', log ++ evs) |}).
Proof.
  intros Hsel Hint Hexec Hch Hfuel.
  rewrite (cycle_selected fuel program loc s loc' url msg q2 pc Hsel Hint).
  unfold bind at 1. unfold on_exec at 1. cbn [exec]. rewrite Hexec.
  pose proof (run_from_chain program pc σ visited evs σ' Hch fuel [] log Hfuel) as Hrun.
  change (run_from fuel program ([] ++ [pc]) (length (@nil Z)) (σ, log))
    with (run fuel program pc (σ, log)) in Hrun.
  rewrite Hrun. unfold bind, sqs_delete, ret. cbn [sqs deleted exec fst snd].
  destruct (delete_message url (ReceiptHandle msg) q2.1) as [[[]|e|] q3]; reflexivity.
Qed.

(** X23: a failed instruction leaves its message in the queue.  When the
    cycle selects a message and an instruction of the chain of its counter
    raises (and [post_op] returns from the report), the worker loop raises
    that error in this very cycle: no delete request is made and no queue
    is asked again, so the message stays for redelivery. *)
Theorem worker_failure_keeps_message cycles fuel program loc s loc' url msg q2 pc σ log
    visited evs pc' σ1 e σ3 k next σ4 :
  select_message receive_message (queue_urls program) loc (sqs s)
  = (Ok (loc', Some (url, msg)), q2) →
  int (Body msg) = Ok pc →
  exec s = (σ, log) →
  reaches program pc σ visited evs pc' σ1 →
  block_raises program pc' σ1 e σ3 k →
  post_op program pc' EXCEPTION (Some (format_exc e)) σ3 = (Ok next, σ4) →
  (length visited < fuel)%nat →
  lambdapack_run_async receive_message delete_message int (S cycles) fuel program loc s
  = (Raise e,
     {| sqs := q2; deleted := deleted s;
        exec := (σ4, log ++ evs ++ failure_events pc' k e) |}).
Proof.
  intros Hsel Hint Hexec Hre Hfail Hpost Hfuel.
  cbn [lambdapack_run_async]. unfold bind at 1.
  rewrite (cycle_selected fuel program loc s loc' url msg q2 pc Hsel Hint).
  unfold bind at 1. unfold on_exec at 1. cbn [exec]. rewrite Hexec.
  pose proof (run_from_reaches program pc σ visited evs pc' σ1 Hre e σ3 k (Ok next) σ4
                Hfail Hpost fuel [] log Hfuel) as Hrun.
  change (run_from fuel program ([] ++ [pc]) (length (@nil Z)) (σ, log))
    with (run fuel program pc (σ, log)) in Hrun.
  rewrite Hrun. reflexivity.
Qed.

(** X24: an idle cycle.  When no queue answers with a message the cycle
    runs nothing and deletes nothing, and the loop goes on to the next
    cycle. *)
Theorem cycle_idle fuel program loc s q q' :
  queue_urls program ≠ [] →
  fst (sqs s) = q →
  all_empty receive_message (rev (queue_urls program)) q q' →
  ∃ loc', cycle receive_message delete_message int fuel program loc s
          = (Ok loc',
             {| sqs := (q', snd (sqs s) ++ requests (rev (queue_urls program)));
                deleted := deleted s; exec := exec s |}).
Proof.
  intros Hne Hq Hall.
  destruct (select_message_none receive_message (queue_urls program) q q' loc
              (snd (sqs s)) Hne Hall) as (loc' & Hsel).
  exists loc'. unfold cycle. unfold bind at 1. unfold on_sqs at 1.
  replace (sqs s) with (q, snd (sqs s)) by (rewrite <- Hq; destruct (sqs s); reflexivity).
  rewrite Hsel. reflexivity.
Qed.

End WorkerCycleFacts.

Lemma cycle_deletes_after_run_witness :
  WorkerCycle.cycle Examples.mock_receive MoreExamples.mock_delete MoreExamples.mock_int 2 Examples.chain_program
    WorkerLoop.unbound (MoreExamples.worker_state MoreExamples.work_queues ([Some 5; None], []))
  = (Ok {| WorkerLoop.queue_url := Some "high";
           WorkerLoop.messages :=
             Some {| WorkerLoop.Messages := Some [Examples.msg "h1" "1"] |} |},
     {| WorkerCycle.sqs := (<["high" := []]> MoreExamples.work_queues, [WorkerLoop.ReceiveMessage "high" 1]);
        WorkerCycle.deleted := [("high", "h1")];
        WorkerCycle.exec :=
          (([], [10; 11; 50; 51]),
           LambdaPackExecutor.block_events 1 2 ++ LambdaPackExecutor.block_events 5 2) |}).
Proof.
  refine (cycle_deletes_after_run Examples.mock_receive MoreExamples.mock_delete MoreExamples.mock_int 2
            Examples.chain_program WorkerLoop.unbound
            (MoreExamples.worker_state MoreExamples.work_queues ([Some 5; None], []))
            _ "high" (Examples.msg "h1" "1")
            (<["high" := []]> MoreExamples.work_queues, [WorkerLoop.ReceiveMessage "high" 1])
            1 ([Some 5; None], []) [] [1; 5]
            (LambdaPackExecutor.block_events 1 2 ++ LambdaPackExecutor.block_events 5 2)
            ([], [10; 11; 50; 51]) eq_refl eq_refl eq_refl _ _).
  - apply LambdaPackExecutor.chain_next with (σ1 := ([None], [10; 11])) (next := 5).
    + exists [Examples.mark 10; Examples.mark 11], ([Some 5; None], []), ([Some 5; None], [10; 11]).
      repeat split; reflexivity.
    + apply LambdaPackExecutor.chain_last.
      exists [Examples.mark 50; Examples.mark 51], ([None], [10; 11]), ([None], [10; 11; 50; 51]).
      repeat split; reflexivity.
  - simpl. lia.
Defined.

Lemma worker_failure_keeps_message_witness :
  WorkerCycle.lambdapack_run_async Examples.mock_receive MoreExamples.mock_delete MoreExamples.mock_int 3 1
    Examples.failing_program WorkerLoop.unbound (MoreExamples.worker_state MoreExamples.work_queues ([], []))
  = (Raise (Exception "boom"),
     {| WorkerCycle.sqs := (<["high" := []]> MoreExamples.work_queues, [WorkerLoop.ReceiveMessage "high" 1]);
        WorkerCycle.deleted := [];
        WorkerCycle.exec :=
          (([], [10]), LambdaPackExecutor.failure_events 1 1 (Exception "boom")) |}).
Proof.
  refine (worker_failure_keeps_message Examples.mock_receive MoreExamples.mock_delete MoreExamples.mock_int 2 1
            Examples.failing_program WorkerLoop.unbound (MoreExamples.worker_state MoreExamples.work_queues ([], []))
            _ "high" (Examples.msg "h1" "1")
            (<["high" := []]> MoreExamples.work_queues, [WorkerLoop.ReceiveMessage "high" 1])
            1 ([], []) [] [] [] 1 ([], []) (Exception "boom") ([], [10]) 1%nat None
            ([], [10]) eq_refl eq_refl eq_refl _ _ eq_refl _).
  - apply LambdaPackExecutor.reaches_here.
  - exists [Examples.mark 10], Examples.boom, [Examples.mark 12], ([], []), ([], [10]).
    repeat split; reflexivity.
  - simpl. lia.
Defined.

Lemma cycle_idle_witness :
  ∃ loc',
    WorkerCycle.cycle Examples.mock_receive MoreExamples.mock_delete MoreExamples.mock_int 1 Examples.chain_program
      WorkerLoop.unbound (MoreExamples.worker_state ∅ ([], []))
    = (Ok loc',
       {| WorkerCycle.sqs :=
            (∅, [WorkerLoop.ReceiveMessage "high" 1; WorkerLoop.ReceiveMessage "low" 1]);
          WorkerCycle.deleted := [];
          WorkerCycle.exec := (([], []), []) |}).
Proof.
  refine (cycle_idle Examples.mock_receive MoreExamples.mock_delete MoreExamples.mock_int 1 Examples.chain_program
            WorkerLoop.unbound (MoreExamples.worker_state ∅ ([], [])) ∅ ∅ _ eq_refl _).
  - discriminate.
  - apply WorkerLoop.all_empty_cons with (q1 := ∅) (r := {| WorkerLoop.Messages := None |});
      [reflexivity|reflexivity|].
    apply WorkerLoop.all_empty_cons with (q1 := ∅) (r := {| WorkerLoop.Messages := None |});
      [reflexivity|reflexivity|].
    apply WorkerLoop.all_empty_nil.
Defined.

(** ** [matrix_utils.chunk] *)

Section Chunks.
Context {A : Type}.
Implicit Types (l : list A).

Lemma slice_take_drop l (i n : nat) :
  MatrixUtils.slice l (Z.of_nat i) (Z.of_nat i + Z.of_nat n) = take n (drop i l).
Proof.
  unfold MatrixUtils.slice, MatrixUtils.slice_bound.
  rewrite (proj2 (Z.ltb_ge (Z.of_nat i) 0)) by lia.
  rewrite (proj2 (Z.ltb_ge (Z.of_nat i + Z.of_nat n) 0)) by lia.
  destruct (decide (i ≤ length l)%nat) as [Hi|Hi].
  - rewrite (Z.min_l (Z.of_nat i)) by lia. rewrite Nat2Z.id.
    destruct (decide (i + n ≤ length l)%nat) as [Hn|Hn].
    + rewrite Z.min_l by lia. f_equal. lia.
    + rewrite Z.min_r by lia. rewrite Nat2Z.id.
      rewrite !take_ge; [reflexivity|rewrite length_drop; lia..].
  - rewrite !drop_ge by lia. rewrite !take_nil. reflexivity.
Qed.

Lemma concat_chunks (n : nat) : ∀ (m : nat) l,
  (0 < n)%nat → (length l ≤ m * n)%nat →
  concat ((λ k, take n (drop (k * n) l)) <$> seq 0 m) = l.
Proof.
  induction m as [|m IH]; intros l Hn Hlen.
  - destruct l; [reflexivity|simpl in Hlen; lia].
  - cbn [seq fmap list_fmap concat]. rewrite Nat.mul_0_l, drop_0.
    rewrite <- fmap_S_seq, <- list_fmap_compose.
    rewrite (list_fmap_ext _ (λ k, take n (drop (k * n) (drop n l)))).
    + rewrite IH; [apply take_drop|exact Hn|rewrite length_drop; lia].
    + intros i k _. unfold compose. rewrite drop_drop; repeat f_equal; lia.
Qed.

Lemma range_nat (len n : nat) :
  (0 < n)%nat →
  range 0 (Z.of_nat len) (Z.of_nat n)
  = Ok ((λ k, Z.of_nat (k * n)) <$> seq 0 (Z.to_nat ((Z.of_nat len + Z.of_nat n - 1) `div` Z.of_nat n))).
Proof.
  intros Hn. unfold range, range_len.
  rewrite (proj2 (Z.eqb_neq (Z.of_nat n) 0)) by lia.
  rewrite (proj2 (Z.ltb_lt 0 (Z.of_nat n))) by lia.
  replace (Z.of_nat len - 0 + Z.of_nat n - 1) with (Z.of_nat len + Z.of_nat n - 1) by lia.
  rewrite Z.max_r by (apply Z.div_pos; lia).
  f_equal. apply list_fmap_ext. intros i k _. lia.
Qed.

(** X25: [chunk] cuts a list into pieces without losing or reordering an
    element.  For [n > 0] the pieces of [chunk(l, n)] put back together
    are [l], there are [ceil(len(l) / n)] of them, and every piece has at
    least one and at most [n] elements. *)
Theorem chunk_concat l (n : Z) :
  0 < n →
  ∃ chunks, MatrixUtils.chunk l n = Ok chunks
    ∧ concat chunks = l
    ∧ Z.of_nat (length chunks) = (Z.of_nat (length l) + n - 1) `div` n
    ∧ Forall (λ c, (0 < length c)%nat ∧ Z.of_nat (length c) ≤ n) chunks.
Proof.
  intros Hn.
  assert (∃ k, n = Z.of_nat k ∧ (0 < k)%nat) as (k & -> & Hk)
    by (exists (Z.to_nat n); lia).
  set (m := Z.to_nat ((Z.of_nat (length l) + Z.of_nat k - 1) `div` Z.of_nat k)).
  assert (0 ≤ (Z.of_nat (length l) + Z.of_nat k - 1) `div` Z.of_nat k) as Hm0
    by (apply Z.div_pos; lia).
  pose proof (Z.div_mod (Z.of_nat (length l) + Z.of_nat k - 1) (Z.of_nat k) ltac:(lia))
    as Hdm.
  pose proof (Z.mod_pos_bound (Z.of_nat (length l) + Z.of_nat k - 1) (Z.of_nat k)
                ltac:(lia)) as Hmod.
  assert (length l ≤ m * k)%nat as Hcover by (unfold m; nia).
  assert (∀ j, (j < m)%nat → (j * k < length l)%nat) as Hin by (intros j Hj; unfold m in Hj; nia).
  exists ((λ j, take k (drop (j * k) l)) <$> seq 0 m).
  split; [|split; [|split]].
  - unfold MatrixUtils.chunk. rewrite (proj2 (Z.eqb_neq (Z.of_nat k) 0)) by lia.
    rewrite (range_nat (length l) k Hk). cbn [rbind]. fold m. f_equal.
    rewrite <- list_fmap_compose. apply list_fmap_ext. intros i j _.
    unfold compose. apply slice_take_drop.
  - apply concat_chunks; [exact Hk|exact Hcover].
  - rewrite length_fmap, length_seq. unfold m. lia.
  - apply Forall_fmap, Forall_forall. intros j Hj. apply elem_of_seq in Hj.
    unfold compose. rewrite length_take, length_drop.
    pose proof (Hin j ltac:(lia)). lia.
Qed.

(** X26: [chunk] with a size that is not positive yields no piece at all,
    whatever the list holds. *)
Theorem chunk_nonpositive l (n : Z) :
  n ≤ 0 → MatrixUtils.chunk l n = Ok [].
Proof.
  intros Hn. unfold MatrixUtils.chunk.
  destruct (Z.eqb_spec n 0) as [|Hnz]; [reflexivity|].
  unfold range, range_len. rewrite (proj2 (Z.eqb_neq n 0)) by exact Hnz.
  rewrite (proj2 (Z.ltb_ge 0 n)) by lia.
  rewrite Z.max_l; [reflexivity|].
  apply Z.lt_succ_r. apply Z.div_lt_upper_bound; lia.
Qed.

End Chunks.

Lemma chunk_concat_witness :
  ∃ chunks, MatrixUtils.chunk [1; 2; 3; 4; 5] 2 = Ok chunks
    ∧ concat chunks = [1; 2; 3; 4; 5]
    ∧ Z.of_nat (length chunks) = 3
    ∧ Forall (λ c, (0 < length c)%nat ∧ Z.of_nat (length c) ≤ 2) chunks.
Proof.
  exact (chunk_concat [1; 2; 3; 4; 5] 2 ltac:(lia)).
Defined.

Lemma chunk_nonpositive_witness :
  MatrixUtils.chunk [1; 2; 3] (-2) = Ok [].
Proof.
  exact (chunk_nonpositive [1; 2; 3] (-2) ltac:(lia)).
Defined.
